(** * agri-trace-grid: the Merkle ledger, the hashing and signature helpers
      and the batch verification route, embedded from the TypeScript sources.

    Conventions of the embedding.
    - A JavaScript string is a [string]: the sequence of the bytes of its
      UTF-8 encoding, which is what [Hash.update] and [Buffer.from] consume.
    - A Node [Buffer] / [Uint8Array] is a [list byte].
    - A rejected promise or a thrown exception is the [None] of an [option]
      (or the [Throw] of [outcome] where the kind of error matters).
    - The MongoDB collection behind the [MerkleLeaf] model is a [list] of
      leaf documents in insertion order; queries are list functions. *)

From Stdlib Require Import ZArith List Bool Lia.
From Stdlib Require Import Strings.String Strings.Ascii Strings.Byte.
From stdpp Require Import base tactics option list sorting gmap.
From Bignums Require Import BigZ.
Import ListNotations.

Set Warnings "-register-all".
Local Open Scope Z_scope.

(** ** Node's [crypto.createHash('sha256')] (FIPS 180-4) *)

Module SHA256.

Definition mask32 : Z := 0xFFFFFFFF.

Definition add32 (x y : Z) : Z := Z.land (x + y) mask32.

Definition rotr (n x : Z) : Z :=
  Z.lor (Z.shiftr x n) (Z.land (Z.shiftl x (32 - n)) mask32).

Definition Ch (x y z : Z) : Z :=
  Z.lxor (Z.land x y) (Z.land (Z.lxor x mask32) z).

Definition Maj (x y z : Z) : Z :=
  Z.lxor (Z.lxor (Z.land x y) (Z.land x z)) (Z.land y z).

Definition Sigma0 (x : Z) : Z := Z.lxor (Z.lxor (rotr 2 x) (rotr 13 x)) (rotr 22 x).
Definition Sigma1 (x : Z) : Z := Z.lxor (Z.lxor (rotr 6 x) (rotr 11 x)) (rotr 25 x).
Definition sigma0 (x : Z) : Z := Z.lxor (Z.lxor (rotr 7 x) (rotr 18 x)) (Z.shiftr x 3).
Definition sigma1 (x : Z) : Z := Z.lxor (Z.lxor (rotr 17 x) (rotr 19 x)) (Z.shiftr x 10).

(** The constants are those of the standard: the first 32 bits of the
    fractional parts of the cube roots ([K]) and of the square roots ([H0])
    of the first primes. *)
Definition is_prime (p : Z) : bool :=
  forallb (fun d => negb (p mod Z.of_nat d =? 0)) (seq 2 (Z.to_nat p - 2)).

Definition first_primes (n : nat) : list Z :=
  firstn n (List.filter is_prime (map Z.of_nat (seq 2 400))).

(** Integer cube root, one bit at a time from bit [bits - 1] down. *)
Fixpoint icbrt (bits : nat) (n r : Z) : Z :=
  match bits with
  | O => r
  | S b =>
      let r' := r + 2 ^ Z.of_nat b in
      icbrt b n (if r' * r' * r' <=? n then r' else r)
  end.

Definition K : list Z :=
  Eval vm_compute in
    map (fun p => Z.land (icbrt 40 (p * 2 ^ 96) 0) mask32) (first_primes 64).

Definition H0 : list Z :=
  Eval vm_compute in
    map (fun p => Z.land (Z.sqrt (p * 2 ^ 64)) mask32) (first_primes 8).

(** [n] bytes of [x], most significant first. *)
Fixpoint be_bytes (n : nat) (x : Z) : list Z :=
  match n with
  | O => []
  | S n' => Z.land (Z.shiftr x (8 * Z.of_nat n')) 0xFF :: be_bytes n' x
  end.

Definition be_word (bs : list Z) : Z :=
  fold_left (fun acc b => Z.lor (Z.shiftl acc 8) b) bs 0.

Definition pad (msg : list Z) : list Z :=
  let len := Z.of_nat (length msg) in
  msg ++ 0x80 :: repeat 0 (Z.to_nat ((55 - len) mod 64)) ++ be_bytes 8 (8 * len).

(** Cuts a list into chunks of [n] elements; [fuel] bounds the number of
    chunks (callers pass the length of the list). *)
Fixpoint chunks {A} (fuel n : nat) (l : list A) : list (list A) :=
  match fuel, l with
  | O, _ | _, [] => []
  | S fuel', _ => firstn n l :: chunks fuel' n (skipn n l)
  end.

(** The message schedule, most recent word first. *)
Fixpoint schedule (steps : nat) (w : list Z) : list Z :=
  match steps with
  | O => w
  | S steps' =>
      let wt := add32 (add32 (sigma1 (nth 1 w 0)) (nth 6 w 0))
                      (add32 (sigma0 (nth 14 w 0)) (nth 15 w 0)) in
      schedule steps' (wt :: w)
  end.

Definition round (st : list Z) (kw : Z * Z) : list Z :=
  match st with
  | [a; b; c; d; e; f; g; h] =>
      let t1 := add32 (add32 (add32 h (Sigma1 e)) (add32 (Ch e f g) (fst kw))) (snd kw) in
      let t2 := add32 (Sigma0 a) (Maj a b c) in
      [add32 t1 t2; a; b; c; add32 d t1; e; f; g]
  | _ => st
  end.

Definition compress (h : list Z) (block : list Z) : list Z :=
  let w16 := map be_word (chunks 16 4 block) in
  let w := rev (schedule 48 (rev w16)) in
  let st := fold_left round (combine K w) h in
  map (fun p => add32 (fst p) (snd p)) (combine h st).

Definition digest_Z (msg : list Z) : list Z :=
  let p := pad msg in
  let h := fold_left compress (chunks (length p) 64 p) H0 in
  concat (map (be_bytes 4) h).

Definition byte_of_Z (z : Z) : byte :=
  match Byte.of_N (Z.to_N (Z.land z 0xFF)) with
  | Some b => b
  | None => x00
  end.

Definition Z_of_byte (b : byte) : Z := Z.of_N (Byte.to_N b).

Definition digest (msg : list byte) : list byte :=
  map byte_of_Z (digest_Z (map Z_of_byte msg)).

End SHA256.

(** ** Hexadecimal strings: [buf.toString('hex')], [digest('hex')] and
       [Buffer.from(s, 'hex')] *)

Module Hex.

Definition digit (n : Z) : ascii :=
  nth (Z.to_nat n)
    ["0"; "1"; "2"; "3"; "4"; "5"; "6"; "7"; "8"; "9"; "a"; "b"; "c"; "d"; "e"; "f"]%char
    "0"%char.

(** Lowercase, two digits per byte. *)
Definition encode (bs : list byte) : string :=
  fold_right
    (fun b s =>
       let z := SHA256.Z_of_byte b in
       String (digit (Z.shiftr z 4)) (String (digit (Z.land z 0xF)) s))
    EmptyString bs.

(** Node's [unhex]: digits and letters of either case. *)
Definition unhex (c : ascii) : option Z :=
  let n := Z.of_N (N_of_ascii c) in
  if (48 <=? n) && (n <=? 57) then Some (n - 48)
  else if (97 <=? n) && (n <=? 102) then Some (n - 87)
  else if (65 <=? n) && (n <=? 70) then Some (n - 55)
  else None.

(** [Buffer.from(s, 'hex')] never throws: it decodes pairs of characters and
    stops at the first pair that holds a character that is no hexadecimal
    digit; a trailing single character is dropped. *)
Fixpoint decode (s : string) : list byte :=
  match s with
  | String a (String b rest) =>
      match unhex a, unhex b with
      | Some x, Some y => SHA256.byte_of_Z (16 * x + y) :: decode rest
      | _, _ => []
      end
  | _ => []
  end.

End Hex.

(** ** JSON values and [JSON.stringify] *)

Module JSON.

Local Open Scope string_scope.

(** The values the routes hand to [JSON.stringify]. A number is an integer
    (printed in decimal, as JavaScript prints integers below 1e21); a [Date]
    is the [JStr] of its ISO string, which is what its [toJSON] yields. The
    entries of an object are listed in property-enumeration order, which for
    keys that are not array indices is the order in which they were added;
    a property may hold [undefined]. *)
Inductive value : Type :=
  | JUndefined
  | JNull
  | JBool (b : bool)
  | JNum (n : Z)
  | JStr (s : string)
  | JArr (items : list value)
  | JObj (entries : list (string * value)).

Definition hex4 (n : Z) : string :=
  String (Hex.digit (Z.land (Z.shiftr n 12) 0xF))
    (String (Hex.digit (Z.land (Z.shiftr n 8) 0xF))
       (String (Hex.digit (Z.land (Z.shiftr n 4) 0xF))
          (String (Hex.digit (Z.land n 0xF)) EmptyString))).

Definition backslash : ascii := ascii_of_nat 92.
Definition dquote : ascii := ascii_of_nat 34.

(** One character of [QuoteJSONString]. *)
Definition escape_char (c : ascii) : string :=
  let n := Z.of_N (N_of_ascii c) in
  if (n =? 8)%Z then String backslash "b"
  else if (n =? 9)%Z then String backslash "t"
  else if (n =? 10)%Z then String backslash "n"
  else if (n =? 12)%Z then String backslash "f"
  else if (n =? 13)%Z then String backslash "r"
  else if (n =? 34)%Z then String backslash (String dquote EmptyString)
  else if (n =? 92)%Z then String backslash (String backslash EmptyString)
  else if (n <? 32)%Z then String backslash (String "u" (hex4 n))
  else String c EmptyString.

Fixpoint escape (s : string) : string :=
  match s with
  | EmptyString => EmptyString
  | String c rest => escape_char c ++ escape rest
  end.

Definition quote (s : string) : string :=
  String dquote (escape s ++ String dquote EmptyString).

Fixpoint digits (fuel : nat) (n : Z) (acc : string) : string :=
  match fuel with
  | O => acc
  | S fuel' =>
      let acc' := String (Hex.digit (n mod 10)) acc in
      if (n <? 10)%Z then acc' else digits fuel' (n / 10) acc'
  end.

Definition number (n : Z) : string :=
  let a := Z.abs n in
  let d := digits (S (Z.to_nat (Z.log2 a))) a EmptyString in
  if (n <? 0)%Z then String "-" d else d.

Definition commas (parts : list string) : string := String.concat "," parts.

(** [JSON.stringify(v)] without replacer and without indentation. The
    result is [undefined] ([None]) for [undefined]; inside an array
    [undefined] prints as [null], inside an object the property is left
    out. *)
Fixpoint stringify (v : value) : option string :=
  match v with
  | JUndefined => None
  | JNull => Some "null"
  | JBool true => Some "true"
  | JBool false => Some "false"
  | JNum n => Some (number n)
  | JStr s => Some (quote s)
  | JArr items =>
      Some ("[" ++ commas (map (fun x => default "null" (stringify x)) items) ++ "]")
  | JObj entries =>
      Some ("{" ++ commas (omap (fun kv =>
                                  match stringify (snd kv) with
                                  | Some s => Some (quote (fst kv) ++ ":" ++ s)
                                  | None => None
                                  end) entries)
                ++ "}")
  end.

(** [value[P]] for an object: the entry stored under the key. *)
Fixpoint get (P : string) (entries : list (string * value)) : option value :=
  match entries with
  | [] => None
  | (k, v) :: rest => if String.eqb k P then Some v else get P rest
  end.

(** [JSON.stringify(v, K)] with an array replacer [K]: every object, at any
    depth, prints the properties named in [K] that it has (and that are not
    [undefined]), in the order of [K]; arrays print all their elements. *)
Fixpoint stringify_with (K : list string) (v : value) : option string :=
  match v with
  | JUndefined => None
  | JNull => Some "null"
  | JBool true => Some "true"
  | JBool false => Some "false"
  | JNum n => Some (number n)
  | JStr s => Some (quote s)
  | JArr items =>
      Some ("[" ++ commas (map (fun x => default "null" (stringify_with K x)) items)
                ++ "]")
  | JObj entries =>
      let fix props (es : list (string * value)) (P : string) : option string :=
        match es with
        | [] => None
        | (k, v') :: rest =>
            if String.eqb k P then
              match stringify_with K v' with
              | Some s => Some (quote P ++ ":" ++ s)
              | None => None
              end
            else props rest P
        end in
      Some ("{" ++ commas (omap (props entries) K) ++ "}")
  end.

(** [v == null]: [null] or [undefined]. *)
Definition nullish (v : value) : bool :=
  match v with
  | JUndefined | JNull => true
  | _ => false
  end.

Definition keys (v : value) : list string :=
  match v with
  | JObj entries => map fst entries
  | _ => []
  end.

End JSON.

(** ** Exceptions *)

Inductive error : Type :=
  | ValidationError   (* mongoose: a required path is missing *)
  | DuplicateKey      (* MongoDB E11000 on the unique index *)
  | TypeError         (* e.g. [hash.update(undefined)] *)
  | SparseArray       (* boundary of the model, see [array_set] *)
  | LibraryError      (* an exception of a third-party library *)
  | InvalidPrivateKey (* [new Error('Invalid private key')] *)
  | NoMoreDraws.      (* boundary of the model, see [generateKeyPair] *)

Inductive outcome (A : Type) : Type :=
  | Ok (a : A)
  | Throw (e : error).

Arguments Ok {A} a.
Arguments Throw {A} e.

Definition bind {A B} (m : outcome A) (k : A -> outcome B) : outcome B :=
  match m with
  | Ok a => k a
  | Throw e => Throw e
  end.

Notation "'let?' x ':=' m 'in' k" := (bind m (fun x => k))
  (at level 10, x pattern, m at level 100, k at level 200).

(** The value of a call that returned, [d] for one that threw. *)
Definition from_Ok {A} (d : A) (o : outcome A) : A :=
  match o with
  | Ok a => a
  | Throw _ => d
  end.

(** [try { body } catch (error) { return false }] *)
Definition catch_false (body : outcome bool) : bool :=
  match body with
  | Ok b => b
  | Throw _ => false
  end.

(** ** The [secp256k1] package

    The npm package (bindings to libsecp256k1) is not part of the
    repository. This module models the four functions that [crypto.ts]
    calls, from the behaviour the package documents: argument checks that
    throw, ECDSA over the curve secp256k1 with the deterministic nonce of
    RFC 6979 (HMAC-SHA256) and signatures normalised to the lower [s].
    Numbers are [bigZ] so that the model runs. *)

Module Secp256k1.

Local Open Scope bigZ_scope.

Definition p : bigZ := 2 ^ 256 - 2 ^ 32 - 977.

Definition n : bigZ :=
  0xFFFFFFFFFFFFFFFFFFFFFFFFFFFFFFFEBAAEDCE6AF48A03BBFD25E8CD0364141.

Definition Gx : bigZ :=
  0x79BE667EF9DCBBAC55A06295CE870B07029BFCDB2DCE28D959F2815B16F81798.

Definition Gy : bigZ :=
  0x483ADA7726A3C4655DA4FBFC0E1108A8FD17B448A68554199C47D08FFB10D4B8.

Fixpoint pow_mod_pos (a : bigZ) (e : positive) (m : bigZ) : bigZ :=
  match e with
  | xH => a mod m
  | xO e' => let r := pow_mod_pos a e' m in (r * r) mod m
  | xI e' => let r := pow_mod_pos a e' m in (((r * r) mod m) * a) mod m
  end.

Definition pow_mod (a : bigZ) (e : Z) (m : bigZ) : bigZ :=
  match e with
  | Zpos e' => pow_mod_pos a e' m
  | _ => 1 mod m
  end.

(** The inverse modulo a prime. *)
Definition inv_mod (a m : bigZ) : bigZ := pow_mod a (BigZ.to_Z m - 2)%Z m.

Inductive point : Type :=
  | Infinity
  | Affine (x y : bigZ).

(** Jacobian coordinates [(X, Y, Z)], the point at infinity having [Z = 0]. *)
Definition jacobian : Type := (bigZ * bigZ * bigZ)%type.

Definition jinfinity : jacobian := (0, 1, 0).

Definition jdouble (P : jacobian) : jacobian :=
  let '(X, Y, Zc) := P in
  if ((Y =? 0) || (Zc =? 0))%bool then jinfinity
  else
    let YY := (Y * Y) mod p in
    let S := (4 * X * YY) mod p in
    let M := (3 * X * X) mod p in
    let X' := (M * M - 2 * S) mod p in
    let Y' := (M * (S - X') - 8 * YY * YY) mod p in
    let Z' := (2 * Y * Zc) mod p in
    (X', Y', Z').

Definition jadd (P Q : jacobian) : jacobian :=
  let '(X1, Y1, Z1) := P in
  let '(X2, Y2, Z2) := Q in
  if Z1 =? 0 then Q
  else if Z2 =? 0 then P
  else
    let Z1Z1 := (Z1 * Z1) mod p in
    let Z2Z2 := (Z2 * Z2) mod p in
    let U1 := (X1 * Z2Z2) mod p in
    let U2 := (X2 * Z1Z1) mod p in
    let S1 := (Y1 * Z2 * Z2Z2) mod p in
    let S2 := (Y2 * Z1 * Z1Z1) mod p in
    if U1 =? U2 then (if S1 =? S2 then jdouble P else jinfinity)
    else
      let H := (U2 - U1) mod p in
      let R := (S2 - S1) mod p in
      let HH := (H * H) mod p in
      let HHH := (H * HH) mod p in
      let V := (U1 * HH) mod p in
      let X3 := (R * R - HHH - 2 * V) mod p in
      let Y3 := (R * (V - X3) - S1 * HHH) mod p in
      let Z3 := (H * Z1 * Z2) mod p in
      (X3, Y3, Z3).

Fixpoint jmul_pos (P : jacobian) (k : positive) : jacobian :=
  match k with
  | xH => P
  | xO k' => jdouble (jmul_pos P k')
  | xI k' => jadd (jdouble (jmul_pos P k')) P
  end.

Definition to_jacobian (P : point) : jacobian :=
  match P with
  | Infinity => jinfinity
  | Affine x y => (x, y, 1)
  end.

Definition of_jacobian (P : jacobian) : point :=
  let '(X, Y, Zc) := P in
  if Zc =? 0 then Infinity
  else
    let zi := inv_mod Zc p in
    let zi2 := (zi * zi) mod p in
    Affine ((X * zi2) mod p) ((Y * zi2 * zi) mod p).

Definition jmul (k : bigZ) (P : point) : jacobian :=
  match BigZ.to_Z k with
  | Zpos k' => jmul_pos (to_jacobian P) k'
  | _ => jinfinity
  end.

Definition G : point := Affine Gx Gy.

(** Big-endian bytes. *)
Definition of_bytes (bs : list byte) : bigZ :=
  fold_left (fun acc b => acc * 256 + BigZ.of_Z (SHA256.Z_of_byte b)) bs 0.

Definition to_bytes32 (x : bigZ) : list byte :=
  map SHA256.byte_of_Z (SHA256.be_bytes 32 (BigZ.to_Z x)).

Definition on_curve (x y : bigZ) : bool :=
  (y * y) mod p =? (x * x * x + 7) mod p.

Definition is_odd (y : bigZ) : bool := y mod 2 =? 1.

(** [secp256k1_ec_pubkey_parse]: 33 bytes (02 or 03, then x) or 65 bytes
    (04, 06 or 07, then x and y). *)
Definition pubkey_parse (pubkey : list byte) : option point :=
  match pubkey with
  | tag :: rest =>
      let t := SHA256.Z_of_byte tag in
      if ((length rest =? 32)%nat && ((t =? 2)%Z || (t =? 3)%Z))%bool then
        let x := of_bytes rest in
        if x <? p then
          let y := pow_mod ((x * x * x + 7) mod p) ((BigZ.to_Z p + 1) / 4)%Z p in
          if on_curve x y then
            Some (Affine x (if Bool.eqb (is_odd y) (t =? 3)%Z then y else (p - y) mod p))
          else None
        else None
      else if ((length rest =? 64)%nat
               && ((t =? 4)%Z || (t =? 6)%Z || (t =? 7)%Z))%bool then
        let x := of_bytes (firstn 32 rest) in
        let y := of_bytes (skipn 32 rest) in
        if ((x <? p) && (y <? p) && on_curve x y
            && ((t =? 4)%Z || Bool.eqb (is_odd y) (t =? 7)%Z))%bool
        then Some (Affine x y)
        else None
      else None
  | [] => None
  end.

Definition valid_seckey (d : bigZ) : bool := (negb (d =? 0) && (d <? n))%bool.

(** [privateKeyVerify(seckey)]; the package asserts a 32-byte argument. *)
Definition privateKeyVerify (seckey : list byte) : outcome bool :=
  if (length seckey =? 32)%nat then Ok (valid_seckey (of_bytes seckey))
  else Throw LibraryError.

(** [publicKeyCreate(seckey)], compressed as by default. *)
Definition publicKeyCreate (seckey : list byte) : outcome (list byte) :=
  if (length seckey =? 32)%nat then
    let d := of_bytes seckey in
    if valid_seckey d then
      match of_jacobian (jmul d G) with
      | Affine x y =>
          Ok (SHA256.byte_of_Z (if is_odd y then 3 else 2) :: to_bytes32 x)
      | Infinity => Throw LibraryError
      end
    else Throw LibraryError
  else Throw LibraryError.

(** HMAC-SHA256 (RFC 2104). *)
Definition xor_pad (pad : Z) (key : list byte) : list byte :=
  map (fun b => SHA256.byte_of_Z (Z.lxor (SHA256.Z_of_byte b) pad))
      (key ++ repeat x00 (64 - length key)).

Definition hmac (key msg : list byte) : list byte :=
  let key' := if (64 <? length key)%nat then SHA256.digest key else key in
  SHA256.digest (xor_pad 0x5c key' ++ SHA256.digest (xor_pad 0x36 key' ++ msg)).

(** The generator of RFC 6979, seeded with [seckey || msg32]: the state
    after initialisation, and the step that yields the next candidate. *)
Definition rfc6979_init (keydata : list byte) : list byte * list byte :=
  let V0 := repeat x01 32 in
  let K0 := repeat x00 32 in
  let K1 := hmac K0 (V0 ++ x00 :: keydata) in
  let V1 := hmac K1 V0 in
  let K2 := hmac K1 (V1 ++ x01 :: keydata) in
  let V2 := hmac K2 V1 in
  (K2, V2).

Definition rfc6979_retry (st : list byte * list byte) : list byte * list byte :=
  let '(K, V) := st in
  let K' := hmac K (V ++ [x00]) in
  (K', hmac K' V).

(** One attempt of [secp256k1_ecdsa_sign] with the candidate nonce. *)
Definition sign_with_nonce (z d k : bigZ) : option (bigZ * bigZ) :=
  if valid_seckey k then
    match of_jacobian (jmul k G) with
    | Affine x _ =>
        let r := x mod n in
        let s := (inv_mod k n * ((z + r * d) mod n)) mod n in
        if ((r =? 0) || (s =? 0))%bool then None
        else Some (r, if n / 2 <? s then n - s else s)
    | Infinity => None
    end
  else None.

Fixpoint sign_loop (tries : nat) (st : list byte * list byte) (z d : bigZ)
  : outcome (list byte) :=
  match tries with
  | O => Throw LibraryError
  | S tries' =>
      let '(K, V) := st in
      let V' := hmac K V in
      match sign_with_nonce z d (of_bytes V') with
      | Some (r, s) => Ok (to_bytes32 r ++ to_bytes32 s)
      | None => sign_loop tries' (rfc6979_retry (K, V')) z d
      end
  end.

(** [ecdsaSign(msg32, seckey).signature]: 64 bytes, [r] then [s]. A
    candidate nonce is refused with probability about 2^-128; the model
    gives up after 16 candidates. *)
Definition ecdsaSign (msg32 seckey : list byte) : outcome (list byte) :=
  if ((length msg32 =? 32)%nat && (length seckey =? 32)%nat)%bool then
    let d := of_bytes seckey in
    if valid_seckey d then
      sign_loop 16 (rfc6979_init (seckey ++ msg32)) (of_bytes msg32 mod n) d
    else Throw LibraryError
  else Throw LibraryError.

(** [ecdsaVerify(sig, msg32, pubkey)]: throws on arguments of the wrong
    length, on [r] or [s] not below the group order and on a public key
    that does not parse; a signature with the higher [s] is not valid. *)
Definition ecdsaVerify (sig msg32 pubkey : list byte) : outcome bool :=
  if ((length sig =? 64)%nat && (length msg32 =? 32)%nat
      && ((length pubkey =? 33)%nat || (length pubkey =? 65)%nat))%bool then
    let r := of_bytes (firstn 32 sig) in
    let s := of_bytes (skipn 32 sig) in
    if ((r <? n) && (s <? n))%bool then
      match pubkey_parse pubkey with
      | None => Throw LibraryError
      | Some Q =>
          if ((r =? 0) || (s =? 0) || (n / 2 <? s))%bool then Ok false
          else
            let z := of_bytes msg32 mod n in
            let w := inv_mod s n in
            let u1 := (z * w) mod n in
            let u2 := (r * w) mod n in
            match of_jacobian (jadd (jmul u1 G) (jmul u2 Q)) with
            | Infinity => Ok false
            | Affine x _ => Ok (x mod n =? r)
            end
      end
    else Throw LibraryError
  else Throw LibraryError.

End Secp256k1.

(** ** [utils/crypto.ts] *)

Module Crypto.

Record KeyPair : Type := mkKeyPair {
  privateKey : string;
  publicKey : string
}.

Definition sha256 (data : string) : list byte :=
  SHA256.digest (list_byte_of_string data).

(** [generateKeyPair]: [draws] are the successive results of
    [crypto.randomBytes(32)]; the loop stops at the first one that
    [privateKeyVerify] accepts. [NoMoreDraws] tells that the given draws did
    not suffice. *)
Fixpoint generateKeyPair (draws : list (list byte)) : outcome KeyPair :=
  match draws with
  | [] => Throw NoMoreDraws
  | privateKey :: draws' =>
      let? ok := Secp256k1.privateKeyVerify privateKey in
      if ok then
        let? publicKey := Secp256k1.publicKeyCreate privateKey in
        Ok (mkKeyPair (Hex.encode privateKey) (Hex.encode publicKey))
      else generateKeyPair draws'
  end.

Definition signData (data : string) (privateKey : string) : outcome string :=
  let hash := sha256 data in
  let privKey := Hex.decode privateKey in
  let? ok := Secp256k1.privateKeyVerify privKey in
  if negb ok then Throw InvalidPrivateKey
  else
    let? signature := Secp256k1.ecdsaSign hash privKey in
    Ok (Hex.encode signature).

Definition verifySignature (data signature publicKey : string) : bool :=
  catch_false
    (let hash := sha256 data in
     let sig := Hex.decode signature in
     let pubKey := Hex.decode publicKey in
     Secp256k1.ecdsaVerify sig hash pubKey).

(** The order of [Array.prototype.sort()] without comparator on strings:
    code unit by code unit; on the bytes of the model this is the order of
    JavaScript for keys of ASCII characters. *)
Definition key_le (a b : string) : Prop := String.leb a b = true.

#[export] Instance key_le_dec (a b : string) : Decision (key_le a b).
Proof. unfold key_le. destruct (String.leb a b); [left|right]; congruence. Defined.

Definition sort_keys (keys : list string) : list string := merge_sort key_le keys.

(** The property list that [JSON.stringify] makes of an array replacer:
    the names in order, a name that occurred before being skipped. *)
Fixpoint property_list (seen items : list string) : list string :=
  match items with
  | [] => []
  | x :: rest =>
      if existsb (String.eqb x) seen then property_list seen rest
      else x :: property_list (x :: seen) rest
  end.

(** [Object.keys(data)] for the values that reach it in [hashData]. *)
Definition object_keys (data : JSON.value) : outcome (list string) :=
  match data with
  | JSON.JUndefined | JSON.JNull => Throw TypeError
  | JSON.JObj entries => Ok (map fst entries)
  | JSON.JArr items =>
      Ok (map (fun i => JSON.number (Z.of_nat i)) (seq 0 (length items)))
  | _ => Ok []
  end.

(** [hashData]: a string is hashed as it is, any other value through
    [JSON.stringify(data, Object.keys(data).sort())]. *)
Definition hashData (data : JSON.value) : outcome string :=
  let? jsonString :=
    match data with
    | JSON.JStr s => Ok (Some s)
    | _ =>
        let? keys := object_keys data in
        Ok (JSON.stringify_with (property_list [] (sort_keys keys)) data)
    end in
  match jsonString with
  | Some s => Ok (Hex.encode (sha256 s))
  | None => Throw TypeError
  end.

(** [batchData.name]: [undefined] for a property that is not there, a
    [TypeError] on [null] and [undefined]. *)
Definition prop (v : JSON.value) (name : string) : outcome JSON.value :=
  match v with
  | JSON.JUndefined | JSON.JNull => Throw TypeError
  | JSON.JObj entries => Ok (default JSON.JUndefined (JSON.get name entries))
  | _ => Ok JSON.JUndefined
  end.

(** JavaScript truthiness, as used by [||] and [!!]. *)
Definition truthy (v : JSON.value) : bool :=
  match v with
  | JSON.JUndefined | JSON.JNull => false
  | JSON.JBool b => b
  | JSON.JNum n => negb (n =? 0)%Z
  | JSON.JStr s => negb (String.eqb s EmptyString)
  | JSON.JArr _ | JSON.JObj _ => true
  end.

(** [createBatchHash]; [now] is [new Date().toISOString()]. *)
Definition createBatchHash (now : string) (batchData : JSON.value)
  : outcome string :=
  let? batch_id := prop batchData "batch_id" in
  let? farmer_id := prop batchData "farmer_id" in
  let? crop := prop batchData "crop" in
  let? location := prop batchData "location" in
  let? metadata := prop batchData "metadata" in
  let? timestamp := prop batchData "timestamp" in
  let canonical :=
    JSON.JObj
      [("batch_id", batch_id); ("farmer_id", farmer_id); ("crop", crop);
       ("location", location); ("metadata", metadata);
       ("timestamp", if truthy timestamp then timestamp else JSON.JStr now)]%string in
  hashData canonical.

End Crypto.

(** ** The [MerkleLeaf] model (mongoose schema) *)

Inductive LeafType : Type := batch | event | anchor.

Module MerkleLeaf.

Record t : Type := mk {
  index : nat;
  hash : string;
  data : JSON.value;
  batch_id : option string;
  event_id : option string;
  type : LeafType;
  root_hash : string;
  proof : list string
}.

(** The collection, in insertion order. *)
Abbreviation collection := (list t).

Definition index_le (a b : t) : Prop := (index a <= index b)%nat.

#[export] Instance index_le_dec (a b : t) : Decision (index_le a b) :=
  le_dec (index a) (index b).

(** [MerkleLeaf.find().sort({ index: 1 })] *)
Definition find_sorted (db : collection) : list t := merge_sort index_le db.

(** [MerkleLeaf.findOne().sort({ index: -1 })]: a leaf of greatest index. *)
Definition findOne_last (db : collection) : option t :=
  fold_left
    (fun acc l =>
       match acc with
       | None => Some l
       | Some m => if (index m <? index l)%nat then Some l else Some m
       end)
    db None.

(** [MerkleLeaf.findOne({ index: leafIndex })] *)
Definition findOne_index (db : collection) (leafIndex : nat) : option t :=
  List.find (fun l => (index l =? leafIndex)%nat) db.

(** [MerkleLeaf.findOne({ hash: leafHash })] *)
Definition findOne_hash (db : collection) (leafHash : string) : option t :=
  List.find (fun l => String.eqb (hash l) leafHash) db.

(** [MerkleLeaf.find({ batch_id: batchId }).sort({ index: 1 })] *)
Definition find_batch (db : collection) (batchId : string) : list t :=
  find_sorted
    (List.filter
       (fun l => match batch_id l with
                 | Some b => String.eqb b batchId
                 | None => false
                 end) db).

(** [doc.save()]: [data] is a required path of type Mixed (any value but
    [null] and [undefined] passes) and [index] carries a unique index. *)
Definition save (db : collection) (doc : t) : outcome collection :=
  if JSON.nullish (data doc) then Throw ValidationError
  else if existsb (fun l => (index l =? index doc)%nat) db then Throw DuplicateKey
  else Ok (db ++ [doc]).

(** [MerkleLeaf.updateMany({}, { root_hash: newRoot })] *)
Definition updateMany_root (db : collection) (newRoot : string) : collection :=
  map (fun l => mk (index l) (hash l) (data l) (batch_id l) (event_id l)
                   (type l) newRoot (proof l)) db.

End MerkleLeaf.

(** ** [MerkleTreeService] *)

Module MerkleTreeService.

Import MerkleLeaf.

Definition sha256_hex (data : string) : string :=
  Hex.encode (SHA256.digest (list_byte_of_string data)).

Definition hash (data : string) : string := sha256_hex data.

Definition combineHashes (left_ right_ : string) : string :=
  hash (left_ ++ right_)%string.

Record RootAndProof : Type := mkRootAndProof {
  rp_root : string;
  rp_proof : list string
}.

Record AppendResult : Type := mkAppendResult {
  res_index : nat;
  res_root : string;
  res_leaf : string
}.

Record MerkleProof : Type := mkMerkleProof {
  mp_leaf : string;
  mp_proof : list string;
  mp_leafIndex : nat;
  mp_root : string
}.

(** [hashes[leafIndex] = leafHash] on a JavaScript array: an index inside
    the array overwrites, the index one past the end appends. A larger index
    would leave holes ([undefined] elements) in the array; no collection
    written by [appendLeaf] leads there (see [appendLeaf_reachable_ok]), and
    the model stops with [SparseArray] instead of following [undefined]
    through the string concatenations. *)
Definition array_set (hashes : list string) (i : nat) (x : string)
  : outcome (list string) :=
  if (i <? length hashes)%nat then Ok (<[i := x]> hashes)
  else if (i =? length hashes)%nat then Ok (hashes ++ [x])
  else Throw SparseArray.

(** The body of [if (i === currentIndex || i + 1 === currentIndex)].
    [has_right] is the test [i + 1 < currentLevel.length]. *)
Definition push_sibling (i currentIndex : nat) (left_ right_ : string)
    (has_right : bool) (proof : list string) : list string :=
  if (i =? currentIndex)%nat || (i + 1 =? currentIndex)%nat then
    let sibling := if (i =? currentIndex)%nat then right_ else left_ in
    if negb (String.eqb sibling left_) || has_right then proof ++ [sibling]
    else proof
  else proof.

(** The [for (let i = 0; i < currentLevel.length; i += 2)] loop, entered at
    position [i] with the elements from [i] on; returns the hashes pushed to
    [nextLevel] and the proof. *)
Fixpoint for_pairs (i currentIndex : nat) (rest : list string)
    (proof : list string) : list string * list string :=
  match rest with
  | [] => ([], proof)
  | [left_] =>
      let right_ := left_ in
      let proof1 := push_sibling i currentIndex left_ right_ false proof in
      ([combineHashes left_ right_], proof1)
  | left_ :: right_ :: rest' =>
      let proof1 := push_sibling i currentIndex left_ right_ true proof in
      let '(nextLevel, proof2) := for_pairs (i + 2) currentIndex rest' proof1 in
      (combineHashes left_ right_ :: nextLevel, proof2)
  end.

(** The [while (currentLevel.length > 1)] loop; every turn halves the level
    (rounding up), so [fuel] turns are enough for a level of up to
    [2 ^ fuel] hashes. *)
Fixpoint while_levels (fuel : nat) (currentLevel : list string)
    (currentIndex : nat) (proof : list string) : list string * list string :=
  match fuel with
  | O => (currentLevel, proof)
  | S fuel' =>
      if (1 <? length currentLevel)%nat then
        let '(nextLevel, proof') := for_pairs 0 currentIndex currentLevel proof in
        while_levels fuel' nextLevel (currentIndex / 2)%nat proof'
      else (currentLevel, proof)
  end.

Definition calculateRootAndProof (db : collection) (leafIndex : nat)
    (leafHash : string) : outcome RootAndProof :=
  let allLeaves := find_sorted db in
  let hashes0 := map MerkleLeaf.hash allLeaves in
  let? hashes := array_set hashes0 leafIndex leafHash in
  if (length hashes =? 0)%nat then Ok (mkRootAndProof leafHash [])
  else if (length hashes =? 1)%nat then
    Ok (mkRootAndProof (List.hd leafHash hashes) [])
  else
    let '(currentLevel, proof) :=
      while_levels (length hashes) hashes leafIndex [] in
    Ok (mkRootAndProof (List.hd EmptyString currentLevel) proof).

Definition updateRootForAllLeaves (db : collection) (newRoot : string)
  : collection := updateMany_root db newRoot.

(** [crypto.createHash('sha256').update(JSON.stringify(leafData))
    .digest('hex')]; [update] throws when handed [undefined]. *)
Definition leafHashOf (leafData : JSON.value) : outcome string :=
  match JSON.stringify leafData with
  | Some json => Ok (sha256_hex json)
  | None => Throw TypeError
  end.

Definition appendLeaf (db : collection) (leafData : JSON.value)
    (type : LeafType) (batchId eventId : option string)
  : outcome (collection * AppendResult) :=
  let? leafHash := leafHashOf leafData in
  let lastLeaf := findOne_last db in
  let newIndex :=
    match lastLeaf with
    | Some l => (index l + 1)%nat
    | None => 0%nat
    end in
  let? rp := calculateRootAndProof db newIndex leafHash in
  let merkleLeaf :=
    mk newIndex leafHash leafData batchId eventId type (rp_root rp) (rp_proof rp) in
  let? db1 := save db merkleLeaf in
  let db2 := updateRootForAllLeaves db1 (rp_root rp) in
  Ok (db2, mkAppendResult newIndex (rp_root rp) leafHash).

Definition getProof (db : collection) (leafIndex : nat) : option MerkleProof :=
  match findOne_index db leafIndex with
  | None => None
  | Some leaf =>
      Some (mkMerkleProof (MerkleLeaf.hash leaf) (proof leaf) (index leaf)
              (root_hash leaf))
  end.

(** [verifyProof]: [leafIndex] is whatever number the caller passes; on the
    integers [currentIndex % 2 === 0] is [Z.even] and
    [Math.floor(currentIndex / 2)] is [Z.div]. *)
Fixpoint verifyProof_loop (computedHash : string) (proof : list string)
    (currentIndex : Z) : string :=
  match proof with
  | [] => computedHash
  | proofElement :: proof' =>
      let computedHash' :=
        if Z.even currentIndex then combineHashes computedHash proofElement
        else combineHashes proofElement computedHash in
      verifyProof_loop computedHash' proof' (currentIndex / 2)
  end.

Definition verifyProof (leaf : string) (proof : list string) (leafIndex : Z)
    (root : string) : bool :=
  String.eqb (verifyProof_loop leaf proof leafIndex) root.

Definition getCurrentRoot (db : collection) : option string :=
  match findOne_last db with
  | Some lastLeaf => Some (root_hash lastLeaf)
  | None => None
  end.

Definition getBatchLeaves (db : collection) (batchId : string) : list t :=
  find_batch db batchId.

End MerkleTreeService.

(** ** The verification route ([POST /verify]) *)

Module Batch.

(** The fields of the [Batch] model that the route reads. [location] and
    [metadata] are the values that [JSON.stringify] sees for the
    subdocuments. *)
Record t : Type := mk {
  batch_id : string;
  farmer_id : string;
  crop : string;
  location : JSON.value;
  metadata : JSON.value;
  timeline : list JSON.value;
  merkle_leaf : string;
  blockchain_tx : option string;
  isActive : bool
}.

(** [Batch.findOne({ batch_id: id, isActive: true })] *)
Definition findOne_active (db : list t) (id : string) : option t :=
  List.find (fun b => String.eqb (batch_id b) id && isActive b) db.

End Batch.

Module VerifyRoute.

Import MerkleTreeService.

(** [QRPayload] of [types/index.ts]; the route casts [qr_json] to it. *)
Record QRPayload : Type := mkQRPayload {
  qr_batch_id : string;
  qr_farmer_id : string;
  qr_timestamp : string;
  qr_ipfs_hash : string;
  qr_merkle_leaf : string;
  qr_farmer_pubkey : string;
  qr_signature : string
}.

Record Body : Type := mkBody {
  qr_json : option QRPayload;
  body_batch_id : option string
}.

Inductive Mode : Type := blockchain | merkle | both.

Record VerificationResult : Type := mkResult {
  verified : bool;
  mode : Mode;
  reason : string;
  timeline : list JSON.value;
  merkle_proof : option MerkleProof;
  blockchain_tx : option string
}.

(** What the handler does with the request: [res.json({ success: true,
    ...result })] or [next(error)]. *)
Inductive Response : Type :=
  | Json (result : VerificationResult)
  | NextError (status : nat).

(** [verifySchema.validate(req.body)]: one of the two keys must be there,
    and [Joi.string()] refuses the empty string. *)
Definition validate (body : Body) : bool :=
  match qr_json body, body_batch_id body with
  | None, None => false
  | _, Some id => negb (String.eqb id EmptyString)
  | Some _, None => true
  end.

Definition verifyQRSignature (qrPayload : QRPayload) (batch : Batch.t) : bool :=
  catch_false
    (let originalData :=
       JSON.JObj
         [("batch_id", JSON.JStr (qr_batch_id qrPayload));
          ("farmer_id", JSON.JStr (qr_farmer_id qrPayload));
          ("crop", JSON.JStr (Batch.crop batch));
          ("location", Batch.location batch);
          ("metadata", Batch.metadata batch);
          ("timestamp", JSON.JStr (qr_timestamp qrPayload))]%string in
     match JSON.stringify originalData with
     | Some dataString =>
         Ok (Crypto.verifySignature dataString (qr_signature qrPayload)
               (qr_farmer_pubkey qrPayload))
     | None => Throw TypeError
     end).

Definition getMerkleLeafIndex (leaves : MerkleLeaf.collection) (leafHash : string)
  : nat :=
  match MerkleLeaf.findOne_hash leaves leafHash with
  | Some merkleLeaf => MerkleLeaf.index merkleLeaf
  | None => 0%nat
  end.

Definition verifyMerkleInclusion (leaves : MerkleLeaf.collection)
    (batch : Batch.t) : bool :=
  let leafIndex := getMerkleLeafIndex leaves (Batch.merkle_leaf batch) in
  match getProof leaves leafIndex with
  | None => false
  | Some proof =>
      verifyProof (mp_leaf proof) (mp_proof proof) (Z.of_nat (mp_leafIndex proof))
        (mp_root proof)
  end.

(** The body of [verifyBlockchainAnchor]'s [try]: the mock looks whether a
    transaction is recorded on the batch. *)
Definition anchor_mock (batch : Batch.t) : outcome bool :=
  Ok (match Batch.blockchain_tx batch with
      | Some tx => negb (String.eqb tx EmptyString)
      | None => false
      end).

(** [verifyBlockchainAnchor] around any body [check] of the [try]: whatever
    the check throws is caught and counts as "not anchored". *)
Definition verifyBlockchainAnchor_with (check : Batch.t -> outcome bool)
    (batch : Batch.t) : bool :=
  catch_false (check batch).

Definition verifyBlockchainAnchor : Batch.t -> bool :=
  verifyBlockchainAnchor_with anchor_mock.

(** The value of [batchToVerify] after the "Get batch information" step. *)
Definition batchToVerify (batches : list Batch.t) (body : Body) : option Batch.t :=
  match qr_json body with
  | Some qrPayload => Batch.findOne_active batches (qr_batch_id qrPayload)
  | None =>
      match body_batch_id body with
      | Some batch_id => Batch.findOne_active batches batch_id
      | None => None
      end
  end.

(** The handler of [router.post('/')], over the anchor check. *)
Definition post_verify_with (check : Batch.t -> outcome bool)
    (batches : list Batch.t) (leaves : MerkleLeaf.collection) (body : Body)
  : Response :=
  if negb (validate body) then NextError 400
  else
    match batchToVerify batches body with
    | None =>
        Json (mkResult false merkle "Batch not found in database" [] None None)
    | Some batchToVerify =>
        let result := mkResult false merkle EmptyString
                        (Batch.timeline batchToVerify) None None in
        if match qr_json body with
           | Some qrPayload => negb (verifyQRSignature qrPayload batchToVerify)
           | None => false
           end
        then Json (mkResult false merkle "Invalid QR signature"
                     (timeline result) None None)
        else if negb (verifyMerkleInclusion leaves batchToVerify)
        then Json (mkResult false merkle "Merkle proof verification failed"
                     (timeline result) None None)
        else
          let blockchainValid :=
            verifyBlockchainAnchor_with check batchToVerify in
          let merkleProof :=
            getProof leaves
              (getMerkleLeafIndex leaves (Batch.merkle_leaf batchToVerify)) in
          if blockchainValid then
            Json (mkResult true both
                    "Verified through both Merkle tree and blockchain anchor"
                    (timeline result) merkleProof
                    (Batch.blockchain_tx batchToVerify))
          else
            Json (mkResult true merkle
                    "Verified through Merkle tree (blockchain anchor pending or unavailable)"
                    (timeline result) merkleProof None)
    end.

Definition post_verify : list Batch.t -> MerkleLeaf.collection -> Body -> Response :=
  post_verify_with anchor_mock.

End VerifyRoute.

(** ** The ledger routes ([POST /merkle/append]) *)

Module MerkleRoute.

Import MerkleTreeService.

(** The body of the request as [appendSchema] sees it: [data] is any value
    ([JUndefined] when the key is missing), the other keys are strings or
    missing. *)
Record AppendBody : Type := mkAppendBody {
  body_data : JSON.value;
  body_type : option string;
  body_batch_id : option string;
  body_event_id : option string
}.

Definition leafType_of (s : string) : option LeafType :=
  if String.eqb s "batch" then Some batch
  else if String.eqb s "event" then Some event
  else if String.eqb s "anchor" then Some anchor
  else None.

Definition optional_string (o : option string) : bool :=
  match o with
  | Some s => negb (String.eqb s EmptyString)
  | None => true
  end.

(** [appendSchema.validate]: [data] must be an object, [type] one of the
    three names, [batch_id] and [event_id] non-empty strings when given. *)
Definition validate (body : AppendBody) : option LeafType :=
  match body_data body, body_type body with
  | JSON.JObj _, Some ty =>
      if optional_string (body_batch_id body) && optional_string (body_event_id body)
      then leafType_of ty
      else None
  | _, _ => None
  end.

Inductive Response : Type :=
  | Json (result : AppendResult)
  | NextError (status : nat).


End MerkleRoute.

(** ** The [MerkleAnchor] contract (Solidity) *)

Module MerkleAnchor.

(** [bytes32], [uint256] and [address] values are integers. *)
Record Anchor : Type := mkAnchor {
  root : Z;
  timestamp : Z;
  submitter : Z
}.

Record State : Type := mkState {
  anchors : gmap Z Anchor;
  anchorHistory : list Z
}.

Definition deployed : State := mkState ∅ [].

(** What a transaction sees of its block and its sender. *)
Record Context : Type := mkContext {
  block_timestamp : Z;
  msg_sender : Z
}.

Record RootAnchored : Type := mkRootAnchored {
  ev_root : Z;
  ev_timestamp : Z;
  ev_submitter : Z
}.

(** [anchor(root)]; [None] is the revert of [require]. *)
Definition anchor (st : State) (ctx : Context) (root : Z)
  : option (State * RootAnchored) :=
  if root =? 0 then None
  else
    let timestamp := block_timestamp ctx in
    Some (mkState (<[root := mkAnchor root timestamp (msg_sender ctx)]> (anchors st))
                  (anchorHistory st ++ [root]),
          mkRootAnchored root timestamp (msg_sender ctx)).

(** [anchors[root]]: a key that was never written reads as the zero struct. *)
Definition anchors_at (st : State) (root : Z) : Anchor :=
  default (mkAnchor 0 0 0) (anchors st !! root).

(** [verifyAnchor(root)] returns [(exists, timestamp, submitter)]. *)
Definition verifyAnchor (st : State) (root : Z) : bool * Z * Z :=
  let anchor := anchors_at st root in
  (0 <? timestamp anchor, timestamp anchor, submitter anchor).

Definition getLatestRoot (st : State) : Z :=
  if (length (anchorHistory st) =? 0)%nat then 0
  else nth (length (anchorHistory st) - 1) (anchorHistory st) 0.

Definition getAnchorCount (st : State) : Z := Z.of_nat (length (anchorHistory st)).

(** A sequence of [anchor] transactions; a reverted one changes nothing. *)
Fixpoint run (st : State) (txs : list (Context * Z)) : State :=
  match txs with
  | [] => st
  | (ctx, root) :: txs' =>
      match anchor st ctx root with
      | Some (st', _) => run st' txs'
      | None => run st txs'
      end
  end.

End MerkleAnchor.

(** ** Ledgers built by serially executed [appendLeaf] calls *)

Module Ledger.

Import MerkleLeaf MerkleTreeService.

Record Request : Type := mkRequest {
  leafData : JSON.value;
  leafType : LeafType;
  batchId : option string;
  eventId : option string
}.

Definition append (db : collection) (rq : Request)
  : outcome (collection * AppendResult) :=
  appendLeaf db (leafData rq) (leafType rq) (batchId rq) (eventId rq).

(** One call after the other; a call that throws leaves the collection as
    it was (nothing is written before [save] succeeds). *)
Fixpoint run (db : collection) (reqs : list Request)
  : collection * list (outcome AppendResult) :=
  match reqs with
  | [] => (db, [])
  | rq :: reqs' =>
      match append db rq with
      | Ok (db', r) =>
          let '(db'', outs) := run db' reqs' in (db'', Ok r :: outs)
      | Throw e =>
          let '(db'', outs) := run db reqs' in (db'', Throw e :: outs)
      end
  end.

(** The results of the calls that returned. *)
Definition returned (outs : list (outcome AppendResult)) : list AppendResult :=
  omap (fun o => match o with Ok r => Some r | Throw _ => None end) outs.

Inductive reachable : collection -> Prop :=
  | reachable_empty : reachable []
  | reachable_append db rq db' r :
      reachable db -> append db rq = Ok (db', r) -> reachable db'.

(** Invariant I2: the stored indices are [0, 1, ..., n-1], in this order. *)
Definition dense (db : collection) : Prop :=
  map index db = seq 0 (length db).

End Ledger.

(** * Definitions for the statements *)

Section LedgerDefinitions.

Import MerkleLeaf MerkleTreeService Ledger.

Definition nextIndex (db : collection) : nat :=
  match findOne_last db with
  | Some l => (index l + 1)%nat
  | None => 0%nat
  end.

(** What [calculateRootAndProof] computes for the leaf appended to a dense
    collection. *)
Definition root_and_proof_of (hashes : list string) (leafHash : string)
  : RootAndProof :=
  match hashes with
  | [] => mkRootAndProof leafHash []
  | _ =>
      let all := hashes ++ [leafHash] in
      let '(lvl, pf) := while_levels (length all) all (length hashes) [] in
      mkRootAndProof (List.hd EmptyString lvl) pf
  end.






Definition latest_root (outs : list (outcome AppendResult)) (r0 : string)
  : string :=
  match last (returned outs) with
  | Some r => res_root r
  | None => r0
  end.

(** "Pair adjacent hashes left-to-right; an odd final element at a level is
    paired with itself." *)
Fixpoint pair_up (level : list string) : list string :=
  match level with
  | [] => []
  | [x] => [combineHashes x x]
  | x :: y :: rest => combineHashes x y :: pair_up rest
  end.

(** "... combining pairs into the next level, until one hash remains." *)
Fixpoint reduce_levels (fuel : nat) (level : list string) : list string :=
  match fuel with
  | O => level
  | S fuel' =>
      if (1 <? length level)%nat then reduce_levels fuel' (pair_up level)
      else level
  end.

Definition spec_root (hashes : list string) : option string :=
  head (reduce_levels (length hashes) hashes).

End LedgerDefinitions.

Section HexDefinitions.

(** [s.toUpperCase()] on the characters of a hexadecimal string. *)
Definition upper_char (c : ascii) : ascii :=
  let n := N_of_ascii c in
  if ((97 <=? n) && (n <=? 122))%N then ascii_of_N (n - 32) else c.

Fixpoint toUpperCase (s : string) : string :=
  match s with
  | EmptyString => EmptyString
  | String c s' => String (upper_char c) (toUpperCase s')
  end.

End HexDefinitions.

Section CanonicalDefinitions.

Import JSON Crypto.

(** Two values are the same record when they differ at most in the order of
    the entries of their objects, at any depth. *)
Inductive same_record : value -> value -> Prop :=
  | same_undefined : same_record JUndefined JUndefined
  | same_null : same_record JNull JNull
  | same_bool b : same_record (JBool b) (JBool b)
  | same_num n : same_record (JNum n) (JNum n)
  | same_str s : same_record (JStr s) (JStr s)
  | same_arr items items' :
      Forall2 same_record items items' -> same_record (JArr items) (JArr items')
  | same_obj entries entries' :
      map fst entries ≡ₚ map fst entries' ->
      Forall (fun kv => exists v', get (fst kv) entries' = Some v' /\
                                   same_record (snd kv) v') entries ->
      same_record (JObj entries) (JObj entries').

(** The properties that an object prints under a property list [K]. *)
Definition printed (K : list string) (entries : list (string * value))
    (P : string) : option string :=
  match get P entries with
  | Some v =>
      match stringify_with K v with
      | Some s => Some (quote P ++ ":" ++ s)%string
      | None => None
      end
  | None => None
  end.

(** The property list of [createBatchHash]: the six keys, sorted. *)
Definition batch_keys : list string :=
  ["batch_id"; "crop"; "farmer_id"; "location"; "metadata"; "timestamp"]%string.

End CanonicalDefinitions.

Section AnchorDefinitions.

Import MerkleAnchor.

(** The two records of the contract agree on every state that [anchor]
    transactions build from the deployed contract. *)
Definition consistent (st : State) : Prop :=
  forall root,
    (root ∈ anchorHistory st <-> is_Some (anchors st !! root)) /\
    (forall a, anchors st !! root = Some a ->
       root <> 0 /\ MerkleAnchor.root a = root /\ 0 < timestamp a).

End AnchorDefinitions.

(** ** Sample records *)

Module Samples.

Import JSON Ledger.
Local Open Scope string_scope.

Definition recordA : value := JObj [("crop", JStr "rice"); ("quantity", JNum 120)].
Definition recordB : value := JObj [("crop", JStr "wheat"); ("quantity", JNum 75)].
Definition recordC : value := JObj [("crop", JStr "maize"); ("quantity", JNum 9)].

Definition requestA : Request := mkRequest recordA batch (Some "FARM1") None.
Definition requestB : Request := mkRequest recordB batch (Some "FARM2") None.
Definition requestC : Request := mkRequest recordC event (Some "FARM2") (Some "EVT1").

(** The leaf hash of a record that is not [undefined]. *)
Definition digest_of (v : value) : string :=
  from_Ok EmptyString (MerkleTreeService.leafHashOf v).

Definition hashA : string := digest_of recordA.
Definition hashB : string := digest_of recordB.
Definition hashC : string := digest_of recordC.

(** The same record as [recordA], its keys added in the other order. *)
Definition recordA' : value := JObj [("quantity", JNum 120); ("crop", JStr "rice")].

(** A batch as the batch route creates it: the record that is signed and
    appended to the ledger, the ledger after that append, the stored batch
    and its QR payload. *)
Definition sampleLocation : value := JObj [("lat", JNum 12); ("lng", JNum 77)].

Definition sampleMetadata : value :=
  JObj [("crop", JStr "rice"); ("quantity", JNum 120); ("unit", JStr "kg")].

Definition sampleBatchData : value :=
  JObj [("batch_id", JStr "FARM1"); ("farmer_id", JStr "farmer-1");
        ("crop", JStr "rice"); ("location", sampleLocation);
        ("metadata", sampleMetadata);
        ("timestamp", JStr "2025-01-01T00:00:00.000Z")].

Definition sampleLedger : MerkleLeaf.collection :=
  Eval vm_compute in
    fst (run [] [mkRequest sampleBatchData batch (Some "FARM1") None]).

Definition sampleBatch (tx : option string) : Batch.t :=
  Batch.mk "FARM1" "farmer-1" "rice" sampleLocation sampleMetadata []
    (digest_of sampleBatchData) tx true.

(** Key material: one result of [crypto.randomBytes(32)], the key pair that
    [generateKeyPair] makes of it, a message and its signature. *)
Definition sampleDraw : list byte :=
  Hex.decode "1f0e2d3c4b5a69788796a5b4c3d2e1f00112233445566778899aabbccddeeff0".

Definition sampleKeyPair : Crypto.KeyPair :=
  Eval vm_compute in
    from_Ok (Crypto.mkKeyPair EmptyString EmptyString)
      (Crypto.generateKeyPair [sampleDraw]).

Definition sampleMessage : string :=
  Eval vm_compute in default EmptyString (stringify recordA).

Definition sampleSignatureBytes : list byte :=
  Eval vm_compute in
    from_Ok [] (Secp256k1.ecdsaSign (Crypto.sha256 sampleMessage) sampleDraw).

Definition sampleSignature : string := Hex.encode sampleSignatureBytes.

Definition sampleQRPayload : VerifyRoute.QRPayload :=
  Eval vm_compute in
    VerifyRoute.mkQRPayload "FARM1" "farmer-1" "2025-01-01T00:00:00.000Z"
      "QmSample" (digest_of sampleBatchData) (Crypto.publicKey sampleKeyPair)
      (from_Ok EmptyString
         (Crypto.signData (default EmptyString (stringify sampleBatchData))
            (Crypto.privateKey sampleKeyPair))).



(** [sampleBatchData] with the field at other coordinates. *)
Definition sampleBatchData_moved : value :=
  JObj [("batch_id", JStr "FARM1"); ("farmer_id", JStr "farmer-1");
        ("crop", JStr "rice");
        ("location", JObj [("lat", JNum 48); ("lng", JNum 2)]);
        ("metadata", sampleMetadata);
        ("timestamp", JStr "2025-01-01T00:00:00.000Z")]%string.

End Samples.

(** * Properties *)

(** ** The size of digests *)

Section DigestSize.

Lemma be_bytes_length n x : length (SHA256.be_bytes n x) = n.
Proof. induction n as [|n IH]; cbn [SHA256.be_bytes length]; [reflexivity|]. rewrite IH. reflexivity. Qed.

Lemma round_length st kw : length st = 8%nat -> length (SHA256.round st kw) = 8%nat.
Proof.
  intros H. destruct st as [|a [|b [|c [|d [|e [|f [|g [|h [|]]]]]]]]];
    try discriminate. reflexivity.
Qed.

Lemma fold_round_length l : forall st,
  length st = 8%nat -> length (fold_left SHA256.round l st) = 8%nat.
Proof.
  induction l as [|kw l IH]; intros st H; [exact H|].
  cbn [fold_left]. apply IH, round_length, H.
Qed.

Lemma compress_length h block :
  length h = 8%nat -> length (SHA256.compress h block) = 8%nat.
Proof.
  intros H. unfold SHA256.compress.
  rewrite length_map, length_combine, fold_round_length by exact H.
  rewrite H. reflexivity.
Qed.

Lemma fold_compress_length blocks : forall h,
  length h = 8%nat -> length (fold_left SHA256.compress blocks h) = 8%nat.
Proof.
  induction blocks as [|b blocks IH]; intros h H; [exact H|].
  cbn [fold_left]. apply IH, compress_length, H.
Qed.

Lemma concat_be_bytes_length h :
  length (concat (map (SHA256.be_bytes 4) h)) = (4 * length h)%nat.
Proof.
  induction h as [|x h IH]; [reflexivity|].
  cbn [map concat]. rewrite length_app, be_bytes_length, IH. cbn [length]. lia.
Qed.

Lemma digest_length msg : length (SHA256.digest msg) = 32%nat.
Proof.
  unfold SHA256.digest, SHA256.digest_Z.
  rewrite length_map, concat_be_bytes_length, fold_compress_length; reflexivity.
Qed.

End DigestSize.

(** The digest is computed with [vm_compute] only; unification is kept from
    unfolding it. *)
Opaque SHA256.digest_Z.

Arguments MerkleTreeService.sha256_hex : simpl never.
Arguments MerkleTreeService.hash : simpl never.
Arguments MerkleTreeService.combineHashes : simpl never.

(** ** The size of hashes *)

Section HashSize.

Lemma encode_cons b bs :
  Hex.encode (b :: bs) =
    String (Hex.digit (Z.shiftr (SHA256.Z_of_byte b) 4))
      (String (Hex.digit (Z.land (SHA256.Z_of_byte b) 0xF)) (Hex.encode bs)).
Proof. reflexivity. Qed.

Lemma encode_length (bs : list byte) :
  String.length (Hex.encode bs) = (2 * length bs)%nat.
Proof.
  induction bs as [|b bs IH]; [reflexivity|].
  rewrite encode_cons. cbn [String.length length]. rewrite IH. lia.
Qed.

Lemma sha256_hex_length (s : string) :
  String.length (MerkleTreeService.sha256_hex s) = 64%nat.
Proof.
  unfold MerkleTreeService.sha256_hex. rewrite encode_length, digest_length.
  reflexivity.
Qed.

End HashSize.

(** ** Queries on a dense collection *)

Section DenseCollection.

Import MerkleLeaf MerkleTreeService Ledger.

#[export] Instance index_le_trans : Transitive index_le.
Proof. intros a b c; unfold index_le; lia. Qed.

#[export] Instance index_le_total : Total index_le.
Proof. intros a b; unfold index_le; lia. Qed.

Lemma dense_snoc db x :
  dense db -> index x = length db -> dense (db ++ [x]).
Proof.
  unfold dense; intros Hd Hx.
  rewrite map_app, length_app, Hd; simpl.
  rewrite Nat.add_1_r, seq_S, Hx; reflexivity.
Qed.

Lemma dense_lookup db i x :
  dense db -> db !! i = Some x -> index x = i.
Proof.
  unfold dense; intros Hd Hx.
  assert (Hm : (index <$> db) !! i = Some (index x))
    by (rewrite list_lookup_fmap, Hx; reflexivity).
  change (index <$> db) with (map index db) in Hm.
  rewrite Hd in Hm.
  apply lookup_seq in Hm; lia.
Qed.

Lemma dense_index_lt db x : dense db -> x ∈ db -> (index x < length db)%nat.
Proof.
  intros Hd Hx. apply list_elem_of_lookup in Hx as [i Hi].
  rewrite (dense_lookup _ _ _ Hd Hi). eapply lookup_lt_Some; eauto.
Qed.

Lemma dense_inj db x y :
  dense db -> x ∈ db -> y ∈ db -> index x = index y -> x = y.
Proof.
  intros Hd Hx Hy E.
  apply list_elem_of_lookup in Hx as [i Hi].
  apply list_elem_of_lookup in Hy as [j Hj].
  pose proof (dense_lookup _ _ _ Hd Hi).
  pose proof (dense_lookup _ _ _ Hd Hj).
  assert (i = j) by lia; subst j; congruence.
Qed.

Lemma dense_StronglySorted db : dense db -> StronglySorted index_le db.
Proof.
  induction db as [|x db IH] using rev_ind; intros Hd; [constructor|].
  assert (Hd' : dense db).
  { unfold dense in *. rewrite map_app, length_app in Hd; simpl in Hd.
    rewrite Nat.add_1_r, seq_S in Hd. apply app_inj_tail in Hd; tauto. }
  assert (Hx : index x = length db).
  { unfold dense in *. rewrite map_app, length_app in Hd; simpl in Hd.
    rewrite Nat.add_1_r, seq_S in Hd. apply app_inj_tail in Hd; tauto. }
  apply StronglySorted_app_2; [|auto|repeat constructor].
  intros x1 x2 H1 H2. apply list_elem_of_singleton in H2; subst x2.
  unfold index_le. pose proof (dense_index_lt _ _ Hd' H1). lia.
Qed.

(** On a dense collection [find().sort({ index: 1 })] is the collection. *)
Lemma find_sorted_dense db : dense db -> find_sorted db = db.
Proof.
  intros Hd. unfold find_sorted.
  apply (StronglySorted_unique_strong index_le).
  - intros x1 x2 H1 H2 L1 L2.
    rewrite merge_sort_Permutation in H1.
    apply (dense_inj db); auto. unfold index_le in *; lia.
  - apply StronglySorted_merge_sort; typeclasses eauto.
  - apply dense_StronglySorted; auto.
  - apply merge_sort_Permutation.
Qed.

Lemma dense_unsnoc db x :
  dense (db ++ [x]) -> dense db /\ index x = length db.
Proof.
  unfold dense. rewrite map_app, length_app; simpl.
  rewrite Nat.add_1_r, seq_S. intros H; apply app_inj_tail in H; tauto.
Qed.

Lemma findOne_last_snoc db x :
  findOne_last (db ++ [x]) =
    match findOne_last db with
    | None => Some x
    | Some m => if (index m <? index x)%nat then Some x else Some m
    end.
Proof. unfold findOne_last. rewrite fold_left_app. reflexivity. Qed.

(** On a dense collection the leaf of greatest index is the one saved last,
    so the next index is the number of leaves. *)
Lemma findOne_last_dense db :
  dense db -> findOne_last db = last db.
Proof.
  induction db as [|x db IH] using rev_ind; intros Hd; [reflexivity|].
  apply dense_unsnoc in Hd as [Hd Hx].
  rewrite findOne_last_snoc, IH by auto.
  rewrite last_snoc.
  destruct (last db) as [m|] eqn:E; [|reflexivity].
  assert (Hm : m ∈ db) by (eapply last_Some_elem_of; eauto).
  pose proof (dense_index_lt _ _ Hd Hm).
  destruct (Nat.ltb_spec (index m) (index x)); [reflexivity|lia].
Qed.

Lemma nextIndex_dense db : dense db -> nextIndex db = length db.
Proof.
  intros Hd. unfold nextIndex. rewrite findOne_last_dense by auto.
  destruct db as [|x db] using rev_ind; [reflexivity|].
  apply dense_unsnoc in Hd as [Hd Hx].
  rewrite last_snoc, length_app; simpl; lia.
Qed.

End DenseCollection.

(** ** The tree-construction loops *)

Section TreeLoops.

Import MerkleLeaf MerkleTreeService Ledger.

Lemma list_pair_ind {A} (P : list A -> Prop) :
  P [] -> (forall x, P [x]) -> (forall x y l, P l -> P (x :: y :: l)) ->
  forall l, P l.
Proof.
  intros H0 H1 H2.
  assert (H : forall l, P l /\ forall x, P (x :: l)).
  { induction l as [|y l [IHa IHb]]; split; auto. }
  intros l; apply H.
Qed.

(** The next level has half as many hashes, rounded up. *)
Lemma for_pairs_length lvl : forall i ci pf,
  length (fst (for_pairs i ci lvl pf)) = ((length lvl + 1) / 2)%nat.
Proof.
  induction lvl as [|x|x y l IH] using list_pair_ind; intros i ci pf;
    [reflexivity|reflexivity|].
  cbn [for_pairs].
  specialize (IH (i + 2)%nat ci (push_sibling i ci x y true pf)).
  destruct (for_pairs (i + 2) ci l _) as [nl p2]; cbn [fst length] in *.
  rewrite IH.
  replace (S (S (length l)) + 1)%nat with ((length l + 1) + 1 * 2)%nat by lia.
  rewrite Nat.div_add by lia. lia.
Qed.

(** The [while] loop ends: with at least as much fuel as hashes it stops
    because the level has shrunk to one hash, not because fuel ran out. *)
Lemma while_levels_ends fuel : forall lvl ci pf,
  (1 <= length lvl <= S fuel)%nat ->
  length (fst (while_levels fuel lvl ci pf)) = 1%nat.
Proof.
  induction fuel as [|fuel IH]; intros lvl ci pf Hl; cbn [while_levels].
  - cbn [fst]; lia.
  - destruct (Nat.ltb_spec 1 (length lvl)) as [Hlt|Hge]; [|cbn [fst]; lia].
    pose proof (for_pairs_length lvl 0 ci pf) as Hlen.
    destruct (for_pairs 0 ci lvl pf) as [nl p']; cbn [fst] in Hlen.
    apply IH. rewrite Hlen.
    pose proof (Nat.div_mod_eq (length lvl + 1) 2) as Hd.
    pose proof (Nat.mod_upper_bound (length lvl + 1) 2). lia.
Qed.

(** More fuel than needed changes nothing. *)
Lemma while_levels_fuel_irrelevant fuel : forall fuel' lvl ci pf,
  (length lvl <= S fuel)%nat -> (fuel <= fuel')%nat ->
  while_levels fuel' lvl ci pf = while_levels fuel lvl ci pf.
Proof.
  induction fuel as [|fuel IH]; intros fuel' lvl ci pf Hl Hf.
  - destruct fuel'; cbn [while_levels]; [reflexivity|].
    destruct (Nat.ltb_spec 1 (length lvl)); [lia|reflexivity].
  - destruct fuel' as [|fuel']; [lia|]. cbn [while_levels].
    destruct (Nat.ltb_spec 1 (length lvl)) as [Hlt|Hge]; [|reflexivity].
    pose proof (for_pairs_length lvl 0 ci pf) as Hlen.
    destruct (for_pairs 0 ci lvl pf) as [nl p']; cbn [fst] in Hlen.
    apply IH; [|lia]. rewrite Hlen.
    pose proof (Nat.div_mod_eq (length lvl + 1) 2) as Hd.
    pose proof (Nat.mod_upper_bound (length lvl + 1) 2). lia.
Qed.

Lemma array_set_end hashes x :
  array_set hashes (length hashes) x = Ok (hashes ++ [x]).
Proof.
  unfold array_set. rewrite Nat.ltb_irrefl, Nat.eqb_refl. reflexivity.
Qed.

Lemma calculateRootAndProof_dense db leafHash :
  dense db ->
  calculateRootAndProof db (length db) leafHash =
    Ok (root_and_proof_of (map MerkleLeaf.hash db) leafHash).
Proof.
  intros Hd. unfold calculateRootAndProof.
  rewrite find_sorted_dense by auto.
  replace (length db) with (length (map MerkleLeaf.hash db)) at 1
    by apply length_map.
  rewrite array_set_end. cbn [bind].
  rewrite length_app, !length_map; cbn [length].
  destruct db as [|l0 db]; [reflexivity|].
  cbn [map root_and_proof_of length app].
  rewrite ?length_app, ?length_map; cbn [length].
  destruct (Nat.eqb_spec (S (length db) + 1) 0); [lia|].
  destruct (Nat.eqb_spec (S (length db) + 1) 1); [lia|].
  replace (S (length db) + 1)%nat with (S (length db + 1)) by lia.
  destruct (while_levels _ _ _ _); reflexivity.
Qed.

Lemma save_dense db doc :
  dense db -> index doc = length db -> JSON.nullish (data doc) = false ->
  save db doc = Ok (db ++ [doc]).
Proof.
  intros Hd Hi Hn. unfold save.
  assert (He : existsb (fun l => (index l =? index doc)%nat) db = false).
  { apply not_true_is_false. intros He. apply existsb_exists in He as (l & Hl & E).
    apply Nat.eqb_eq in E. apply list_elem_of_In in Hl.
    pose proof (dense_index_lt _ _ Hd Hl). lia. }
  rewrite He, Hn. reflexivity.
Qed.

Lemma updateMany_root_index db r :
  map index (updateMany_root db r) = map index db.
Proof. unfold updateMany_root. rewrite map_map. reflexivity. Qed.

Lemma updateMany_root_length db r : length (updateMany_root db r) = length db.
Proof. apply length_map. Qed.

Lemma leafHashOf_defined v :
  JSON.nullish v = false -> exists h, leafHashOf v = Ok h.
Proof.
  unfold leafHashOf. destruct v as [| |[|]| | | |]; try discriminate; intros _;
    cbn [JSON.stringify]; eexists; reflexivity.
Qed.

(** [appendLeaf] on a dense collection, spelled out. *)
Lemma appendLeaf_dense db leafData ty b e leafHash :
  dense db -> JSON.nullish leafData = false ->
  leafHashOf leafData = Ok leafHash ->
  let rp := root_and_proof_of (map MerkleLeaf.hash db) leafHash in
  appendLeaf db leafData ty b e =
    Ok (updateMany_root
          (db ++ [mk (length db) leafHash leafData b e ty (rp_root rp) (rp_proof rp)])
          (rp_root rp),
        mkAppendResult (length db) (rp_root rp) leafHash).
Proof.
  intros Hd Hn Hh rp. unfold appendLeaf. rewrite Hh. cbn [bind].
  fold (nextIndex db). rewrite nextIndex_dense by auto.
  rewrite calculateRootAndProof_dense by auto.
  cbn [bind]. fold rp.
  rewrite save_dense by auto. reflexivity.
Qed.

(** [null] fails the validation of [save], [undefined] makes [update]
    throw; either way nothing is written. *)
Lemma appendLeaf_nullish db leafData ty b e :
  dense db -> JSON.nullish leafData = true ->
  exists err, appendLeaf db leafData ty b e = Throw err.
Proof.
  intros Hd Hn. unfold appendLeaf.
  destruct leafData; try discriminate.
  - eexists; reflexivity.
  - cbn [leafHashOf JSON.stringify bind]. unfold leafHashOf; cbn [JSON.stringify bind].
    fold (nextIndex db). rewrite nextIndex_dense by auto.
    rewrite calculateRootAndProof_dense by auto. eexists; reflexivity.
Qed.

Lemma append_dense db rq db' r :
  dense db -> append db rq = Ok (db', r) ->
  dense db' /\ length db' = S (length db) /\ res_index r = length db.
Proof.
  intros Hd Ha. unfold append in Ha.
  destruct (JSON.nullish (leafData rq)) eqn:Hn.
  - destruct (appendLeaf_nullish db _ (leafType rq) (batchId rq) (eventId rq) Hd Hn)
      as [err E]. rewrite E in Ha. discriminate.
  - destruct (leafHashOf_defined _ Hn) as [h Hh].
    rewrite (appendLeaf_dense _ _ _ _ _ h) in Ha by auto.
    inversion Ha; subst; clear Ha.
    cbn [res_index]. split; [|split; [|reflexivity]].
    + unfold dense. rewrite updateMany_root_index, updateMany_root_length.
      apply dense_snoc; auto.
    + rewrite updateMany_root_length, length_app; cbn; lia.
Qed.

Lemma reachable_dense db : reachable db -> dense db.
Proof.
  induction 1 as [|db rq db' r _ IH Ha]; [reflexivity|].
  eapply append_dense; eauto.
Qed.


End TreeLoops.

(** ** Index assignment (I2, P3) *)

Section Indices.

Import MerkleLeaf MerkleTreeService Ledger.

Lemma returned_Ok r outs : returned (Ok r :: outs) = r :: returned outs.
Proof. reflexivity. Qed.

Lemma returned_Throw e outs : returned (Throw e :: outs) = returned outs.
Proof. reflexivity. Qed.

Lemma run_dense reqs : forall db,
  dense db ->
  dense (fst (run db reqs)) /\
  map res_index (returned (snd (run db reqs))) =
    seq (length db) (length (returned (snd (run db reqs)))) /\
  length (fst (run db reqs)) =
    (length db + length (returned (snd (run db reqs))))%nat /\
  length (returned (snd (run db reqs))) =
    length (List.filter (fun rq => negb (JSON.nullish (leafData rq))) reqs).
Proof.
  induction reqs as [|rq reqs IH]; intros db Hd; cbn [run].
  - cbn. repeat split; auto.
  - destruct (append db rq) as [[db' r]|e] eqn:Ha.
    + destruct (append_dense _ _ _ _ Hd Ha) as (Hd' & Hlen & Hr).
      specialize (IH db' Hd'). destruct (run db' reqs) as [db'' outs].
      cbn [fst snd] in *. destruct IH as (I1 & I2 & I3 & I4).
      assert (Hn : JSON.nullish (leafData rq) = false).
      { destruct (JSON.nullish (leafData rq)) eqn:E; [|reflexivity].
        destruct (appendLeaf_nullish db _ (leafType rq) (batchId rq) (eventId rq)
                    Hd E) as [err E'].
        unfold append in Ha. rewrite E' in Ha. discriminate. }
      rewrite returned_Ok.
      cbn [map length List.filter]. rewrite Hn; cbn [negb length].
      rewrite I2, Hlen, Hr, I3, Hlen, I4. repeat split; auto; lia.
    + specialize (IH db Hd). destruct (run db reqs) as [db'' outs].
      cbn [fst snd] in *. destruct IH as (I1 & I2 & I3 & I4).
      assert (Hn : JSON.nullish (leafData rq) = true).
      { destruct (JSON.nullish (leafData rq)) eqn:E; [reflexivity|].
        destruct (leafHashOf_defined _ E) as [h Hh].
        unfold append in Ha.
        rewrite (appendLeaf_dense _ _ _ _ _ h) in Ha by auto.
        discriminate. }
      rewrite returned_Throw.
      cbn [List.filter]. rewrite Hn; cbn [negb].
      repeat split; auto.
Qed.

(** C6 (dense index assignment). Whatever the sequence of [appendLeaf]
    calls made one after the other on an empty ledger, the indices returned
    by the calls that return are [0, 1, ..., N-1] in call order (so they are
    pairwise distinct), the stored leaf indices are [0, ..., N-1] without
    gaps, and the calls that return are exactly those whose record is
    neither [null] nor [undefined]. As the statement holds for every
    sequence it holds after every single append. *)
Theorem dense_index_assignment (reqs : list Request) :
  let db := fst (run [] reqs) in
  let results := returned (snd (run [] reqs)) in
  let N := length results in
  map res_index results = seq 0 N /\
  NoDup (map res_index results) /\
  map index db = seq 0 (length db) /\
  length db = N /\
  N = length (List.filter (fun rq => negb (JSON.nullish (leafData rq))) reqs).
Proof.
  cbv zeta.
  destruct (run_dense reqs [] eq_refl) as (H1 & H2 & H3 & H4).
  cbn [length] in *. rewrite Nat.add_0_l in H3.
  repeat split; auto.
  rewrite H2. apply NoDup_seq.
Qed.

End Indices.

(** ** [verifyProof] *)

Section VerifyProof.

Import MerkleTreeService.

Lemma string_app_nil (b : string) : (EmptyString ++ b)%string = b.
Proof. reflexivity. Qed.

Lemma string_app_cons c (a b : string) :
  (String c a ++ b)%string = String c (a ++ b)%string.
Proof. reflexivity. Qed.











Lemma verifyProof_nil h i r : verifyProof h [] i r = String.eqb h r.
Proof. reflexivity. Qed.









End VerifyProof.

(** ** Claims on [verifyProof] *)

Section VerifyProofClaims.

Import MerkleTreeService.

(** C10 (empty proof). With an empty sibling list [verifyProof] compares the
    leaf hash with the root and nothing else: it returns [true] exactly when
    the two are equal, whatever the index. *)
Theorem verifyProof_empty (h : string) (i : Z) (r : string) :
  verifyProof h [] i r = true <-> h = r.
Proof. rewrite verifyProof_nil. apply String.eqb_eq. Qed.




End VerifyProofClaims.

(** ** Stored proofs and roots across appends *)

Section StoredProofs.

Import MerkleLeaf MerkleTreeService Ledger.

Lemma find_map_index (f : t -> t) (db : collection) i :
  (forall l, index (f l) = index l) ->
  findOne_index (map f db) i = option_map f (findOne_index db i).
Proof.
  intros Hf. unfold findOne_index.
  induction db as [|x db IH]; [reflexivity|]. cbn [map List.find].
  rewrite Hf. destruct (index x =? i)%nat; [reflexivity|exact IH].
Qed.

Lemma findOne_index_app_l (db : collection) (doc x : t) i :
  findOne_index db i = Some x -> findOne_index (db ++ [doc]) i = Some x.
Proof.
  unfold findOne_index. induction db as [|y db IH]; [discriminate|].
  cbn [List.find app]. destruct (index y =? i)%nat; auto.
Qed.

Lemma findOne_index_app_r (db : collection) (doc : t) i :
  findOne_index db i = None ->
  findOne_index (db ++ [doc]) i = findOne_index [doc] i.
Proof.
  unfold findOne_index. induction db as [|y db IH]; [reflexivity|].
  cbn [List.find app]. destruct (index y =? i)%nat; [discriminate|exact IH].
Qed.

Lemma findOne_index_app_new (db : collection) (doc : t) :
  dense db -> index doc = length db ->
  findOne_index (db ++ [doc]) (length db) = Some doc.
Proof.
  intros Hd Hi.
  destruct (findOne_index db (length db)) as [x|] eqn:E.
  - unfold findOne_index in E. apply find_some in E as [Hx E].
    apply Nat.eqb_eq in E.
    apply list_elem_of_In in Hx. pose proof (dense_index_lt _ _ Hd Hx). lia.
  - rewrite findOne_index_app_r by exact E.
    unfold findOne_index; cbn [List.find]. rewrite Hi, Nat.eqb_refl. reflexivity.
Qed.

(** What a returning [appendLeaf] did to the collection: one document
    saved, then [root_hash] overwritten in every document. *)
Lemma append_shape db rq db' r :
  append db rq = Ok (db', r) ->
  exists doc,
    db' = updateMany_root (db ++ [doc]) (res_root r) /\
    index doc = res_index r /\ MerkleLeaf.hash doc = res_leaf r /\
    root_hash doc = res_root r.
Proof.
  unfold append, appendLeaf. intros H.
  destruct (leafHashOf (leafData rq)) as [leafHash|e]; [|discriminate].
  cbn [bind] in H.
  destruct (calculateRootAndProof _ _ _) as [rp|e]; [|discriminate].
  cbn [bind] in H.
  match type of H with context [save db ?d] => set (doc := d) in * end.
  unfold save in H. destruct (JSON.nullish (data doc)); [discriminate|].
  destruct (existsb _ db); [discriminate|].
  cbn [bind] in H; inversion H; subst; exists doc; auto.
Qed.

(** One later append: the stored proof stays, the stored root becomes the
    root of that append. *)
Lemma getProof_after_append db rq db' r i p :
  append db rq = Ok (db', r) -> getProof db i = Some p ->
  getProof db' i =
    Some (mkMerkleProof (mp_leaf p) (mp_proof p) (mp_leafIndex p) (res_root r)).
Proof.
  intros Ha Hp. apply append_shape in Ha as (doc & -> & _).
  unfold getProof in *.
  destruct (findOne_index db i) as [x|] eqn:E; [|discriminate].
  unfold updateMany_root. rewrite find_map_index by reflexivity.
  rewrite (findOne_index_app_l _ _ _ _ E). cbn [option_map].
  inversion Hp; subst; reflexivity.
Qed.

Lemma latest_root_Ok r outs r0 :
  latest_root (Ok r :: outs) r0 = latest_root outs (res_root r).
Proof.
  unfold latest_root. rewrite returned_Ok.
  destruct (returned outs) as [|r' l] eqn:E; [reflexivity|].
  rewrite last_cons. destruct (last (r' :: l)) eqn:E2; [reflexivity|].
  apply last_None in E2. discriminate.
Qed.

Lemma getProof_after_run reqs : forall db i p,
  getProof db i = Some p ->
  getProof (fst (run db reqs)) i =
    Some (mkMerkleProof (mp_leaf p) (mp_proof p) (mp_leafIndex p)
            (latest_root (snd (run db reqs)) (mp_root p))).
Proof.
  induction reqs as [|rq reqs IH]; intros db i p Hp; cbn [run].
  - cbn. rewrite Hp. destruct p; reflexivity.
  - destruct (append db rq) as [[db' r]|e] eqn:Ha.
    + pose proof (getProof_after_append _ _ _ _ _ _ Ha Hp) as Hp'.
      specialize (IH db' i _ Hp'). destruct (run db' reqs) as [db'' outs].
      cbn [fst snd mp_leaf mp_proof mp_leafIndex mp_root] in *.
      rewrite IH, latest_root_Ok. reflexivity.
    + specialize (IH db i p Hp). destruct (run db reqs) as [db'' outs].
      cbn [fst snd] in *. exact IH.
Qed.

(** C3 as stated fails: after [recordB] is appended, [getProof(0)] no longer
    returns the root recorded when [recordA] was inserted, and the pair it
    returns is rejected by [verifyProof]. *)
Lemma earlier_root_overwritten :
  exists db1 r1 db2 r2 p1 p2,
    append [] Samples.requestA = Ok (db1, r1) /\
    append db1 Samples.requestB = Ok (db2, r2) /\
    getProof db1 0 = Some p1 /\ getProof db2 0 = Some p2 /\
    mp_root p1 = res_root r1 /\
    mp_proof p2 = mp_proof p1 /\
    mp_root p2 <> mp_root p1 /\
    verifyProof (mp_leaf p2) (mp_proof p2) (Z.of_nat (mp_leafIndex p2)) (mp_root p2)
      = false.
Proof.
  do 6 eexists.
  split; [vm_compute; reflexivity|].
  split; [vm_compute; reflexivity|].
  split; [vm_compute; reflexivity|].
  split; [vm_compute; reflexivity|].
  split; [reflexivity|]. split; [reflexivity|].
  split; [vm_compute; discriminate|vm_compute; reflexivity].
Qed.

(** C3, amended (what later appends leave alone). When a call of
    [appendLeaf] on a ledger built by [appendLeaf] returns, [getProof] at the
    returned index yields the new leaf hash, that index and the returned
    root; after any further calls it still yields the same leaf hash, index
    and proof, and as root the one returned by the latest call that
    returned: every append overwrites the root recorded on every leaf. *)
Theorem later_appends_keep_proof_replace_root (db : collection) (rq : Request)
    (db1 : collection) (r : AppendResult)
    (Hreach : reachable db) (Happend : append db rq = Ok (db1, r)) :
  exists p,
    getProof db1 (res_index r) = Some p /\
    mp_leaf p = res_leaf r /\ mp_leafIndex p = res_index r /\
    mp_root p = res_root r /\
    forall reqs,
      getProof (fst (run db1 reqs)) (res_index r) =
        Some (mkMerkleProof (mp_leaf p) (mp_proof p) (mp_leafIndex p)
                (latest_root (snd (run db1 reqs)) (res_root r))).
Proof.
  pose proof (reachable_dense _ Hreach) as Hd.
  destruct (append_dense _ _ _ _ Hd Happend) as (_ & _ & Hr).
  destruct (append_shape _ _ _ _ Happend) as (doc & -> & Hi & Hh & _).
  assert (Hp : getProof (updateMany_root (db ++ [doc]) (res_root r)) (res_index r)
               = Some (mkMerkleProof (res_leaf r) (proof doc) (res_index r)
                         (res_root r))).
  { unfold getProof, updateMany_root. rewrite find_map_index by reflexivity.
    rewrite Hr, findOne_index_app_new by (auto; congruence).
    cbn. rewrite Hh, Hi, Hr. reflexivity. }
  eexists. split; [exact Hp|]. cbn [mp_leaf mp_leafIndex mp_root mp_proof].
  repeat split.
  intros reqs. apply (getProof_after_run reqs _ _ _ Hp).
Qed.

Lemma later_appends_keep_proof_replace_root_witness :
  exists db1 r p,
    append [] Samples.requestA = Ok (db1, r) /\
    getProof db1 (res_index r) = Some p /\
    mp_root p = res_root r /\
    getProof (fst (run db1 [Samples.requestB])) (res_index r) =
      Some (mkMerkleProof (mp_leaf p) (mp_proof p) (mp_leafIndex p)
              (latest_root (snd (run db1 [Samples.requestB])) (res_root r))).
Proof.
  assert (Ha : exists db1 r, append [] Samples.requestA = Ok (db1, r))
    by (do 2 eexists; vm_compute; reflexivity).
  destruct Ha as (db1 & r & Ha).
  destruct (later_appends_keep_proof_replace_root [] Samples.requestA db1 r
              reachable_empty Ha) as (p & Hp & _ & _ & Hroot & Hlater).
  exists db1, r, p. repeat split; auto.
Defined.

End StoredProofs.

(** ** The shape of small trees (scenarios A, B and C) *)

Section SmallTrees.

Import MerkleLeaf MerkleTreeService Ledger.

Lemma findOne_index_dense db i x :
  dense db -> db !! i = Some x -> findOne_index db i = Some x.
Proof.
  intros Hd Hx. unfold findOne_index.
  assert (Hin : x ∈ db) by (eapply list_elem_of_lookup_2; eauto).
  destruct (List.find _ db) as [y|] eqn:E.
  - apply find_some in E as [Hy E]. apply Nat.eqb_eq in E.
    apply list_elem_of_In in Hy. f_equal.
    apply (dense_inj db); auto. rewrite (dense_lookup _ _ _ Hd Hx). exact E.
  - apply list_elem_of_In in Hin. apply (find_none _ _ E x) in Hin.
    rewrite (dense_lookup _ _ _ Hd Hx), Nat.eqb_refl in Hin. discriminate.
Qed.

(** The hashes and proofs stored after an append to a dense collection. *)
Lemma append_dense_stored db rq h :
  dense db -> JSON.nullish (leafData rq) = false ->
  leafHashOf (leafData rq) = Ok h ->
  let rp := root_and_proof_of (map MerkleLeaf.hash db) h in
  exists db',
    append db rq = Ok (db', mkAppendResult (length db) (rp_root rp) h) /\
    dense db' /\
    map MerkleLeaf.hash db' = map MerkleLeaf.hash db ++ [h] /\
    map proof db' = map proof db ++ [rp_proof rp] /\
    map root_hash db' = repeat (rp_root rp) (S (length db)).
Proof.
  intros Hd Hn Hh rp.
  pose proof (appendLeaf_dense db (leafData rq) (leafType rq) (batchId rq)
                (eventId rq) h Hd Hn Hh) as Ha.
  cbv zeta in Ha. fold rp in Ha. fold (append db rq) in Ha.
  eexists. split; [exact Ha|].
  split; [eapply append_dense; eauto|].
  unfold updateMany_root. rewrite !map_map; cbn [MerkleLeaf.hash proof root_hash].
  rewrite !map_app; cbn [map MerkleLeaf.hash proof].
  split; [reflexivity|]. split; [reflexivity|].
  generalize (rp_root rp); intros s. clear.
  induction db as [|x l IH]; cbn in *; [reflexivity|f_equal; exact IH].
Qed.

(** The guard [sibling !== left || i + 1 < currentLevel.length] is the test
    [i + 1 < currentLevel.length]: a full pair always pushes, the last
    element of a level of odd length, paired with itself, never does. *)
Lemma push_sibling_pair i ci l r pf :
  push_sibling i ci l r true pf =
    if (i =? ci)%nat || (i + 1 =? ci)%nat
    then pf ++ [if (i =? ci)%nat then r else l] else pf.
Proof. unfold push_sibling. rewrite orb_true_r. reflexivity. Qed.

Lemma push_sibling_single i ci l pf : push_sibling i ci l l false pf = pf.
Proof.
  unfold push_sibling. destruct (_ || _); [|reflexivity].
  destruct (i =? ci)%nat; rewrite String.eqb_refl; reflexivity.
Qed.

(** Scenario A: one leaf. *)
Lemma root_and_proof_one h : root_and_proof_of [] h = mkRootAndProof h [].
Proof. reflexivity. Qed.

(** Scenario B: two leaves. *)
Lemma root_and_proof_two hA hB :
  root_and_proof_of [hA] hB = mkRootAndProof (combineHashes hA hB) [hA].
Proof.
  unfold root_and_proof_of.
  cbn [app length while_levels Nat.ltb Nat.leb for_pairs].
  rewrite push_sibling_pair. reflexivity.
Qed.

(** Scenario C: three leaves. The pair [(hC, hC)] of the first level pushes
    nothing. *)
Lemma root_and_proof_three hA hB hC :
  root_and_proof_of [hA; hB] hC =
    mkRootAndProof
      (combineHashes (combineHashes hA hB) (combineHashes hC hC))
      [combineHashes hA hB].
Proof.
  unfold root_and_proof_of.
  cbn [app length while_levels Nat.ltb Nat.leb for_pairs].
  rewrite push_sibling_pair, push_sibling_single.
  cbn [Nat.eqb Nat.add orb Nat.div Nat.divmod fst length Nat.ltb Nat.leb
       while_levels for_pairs].
  rewrite push_sibling_pair. reflexivity.
Qed.

(** The ledger after three appends, for any three records but [null] and
    [undefined]. *)
Lemma three_leaves_root_and_proof (a b c : Request) (hA hB hC : string) :
  JSON.nullish (leafData a) = false -> JSON.nullish (leafData b) = false ->
  JSON.nullish (leafData c) = false ->
  leafHashOf (leafData a) = Ok hA -> leafHashOf (leafData b) = Ok hB ->
  leafHashOf (leafData c) = Ok hC ->
  let root := combineHashes (combineHashes hA hB) (combineHashes hC hC) in
  exists db1 db2 db3 r1 r2,
    append [] a = Ok (db1, r1) /\ append db1 b = Ok (db2, r2) /\
    append db2 c = Ok (db3, mkAppendResult 2 root hC) /\
    getProof db3 2 = Some (mkMerkleProof hC [combineHashes hA hB] 2 root).
Proof.
  intros Ha Hb Hc HhA HhB HhC root.
  destruct (append_dense_stored [] a hA eq_refl Ha HhA) as (db1 & A1 & D1 & H1 & _).
  pose proof (f_equal (@length _) H1) as L1. rewrite !length_map in L1.
  destruct (append_dense_stored db1 b hB D1 Hb HhB) as (db2 & A2 & D2 & H2 & _).
  pose proof (f_equal (@length _) H2) as L2.
  rewrite length_app, !length_map, L1 in L2.
  destruct (append_dense_stored db2 c hC D2 Hc HhC)
    as (db3 & A3 & D3 & H3 & P3 & R3).
  rewrite H2, H1 in H3, A3. cbn [map app] in H3, A3.
  rewrite H2, H1 in P3, R3. cbn [map app] in P3, R3.
  rewrite root_and_proof_three in A3, P3, R3. cbn [rp_root rp_proof] in *.
  fold root in A3, R3. rewrite L2 in A3, R3. cbn [length Nat.add] in A3, R3.
  exists db1, db2, db3. do 2 eexists.
  split; [exact A1|]. split; [exact A2|]. split; [exact A3|].
  pose proof (f_equal (@length _) H3) as L3. rewrite length_map in L3.
  cbn [length] in L3.
  destruct db3 as [|x0 [|x1 [|x2 [|]]]]; try discriminate.
  unfold getProof. rewrite (findOne_index_dense _ 2 x2 D3 eq_refl).
  cbn in H3, P3, R3, D3. unfold dense in D3. cbn in D3.
  cbn in L2. destruct db2 as [|y0 [|y1 [|]]]; try discriminate.
  cbn in P3.
  inversion H3; inversion P3; inversion R3; inversion D3; subst.
  congruence.
Qed.

End SmallTrees.

(** ** Claims on the proofs that [appendLeaf] stores *)

Section StoredProofClaims.

Import MerkleLeaf MerkleTreeService Ledger Samples.

Lemma sample_three_appends :
  exists db1 db2 db3 r1 r2,
    append [] requestA = Ok (db1, r1) /\ append db1 requestB = Ok (db2, r2) /\
    append db2 requestC =
      Ok (db3, mkAppendResult 2
                 (combineHashes (combineHashes hashA hashB)
                                (combineHashes hashC hashC)) hashC) /\
    getProof db3 2 =
      Some (mkMerkleProof hashC [combineHashes hashA hashB] 2
              (combineHashes (combineHashes hashA hashB)
                             (combineHashes hashC hashC))).
Proof.
  exact (three_leaves_root_and_proof requestA requestB requestC
           hashA hashB hashC eq_refl eq_refl eq_refl eq_refl eq_refl eq_refl).
Qed.

(** C1 (proof soundness) does not hold of the code: when [recordA],
    [recordB] and [recordC] are appended to an empty ledger, the proof stored
    for the third leaf is rejected by [verifyProof] against the root that its
    own append returned. *)
Theorem third_leaf_proof_rejected :
  exists db1 db2 db3 r1 r2 r3 p,
    append [] requestA = Ok (db1, r1) /\ append db1 requestB = Ok (db2, r2) /\
    append db2 requestC = Ok (db3, r3) /\
    getProof db3 (res_index r3) = Some p /\
    mp_leaf p = res_leaf r3 /\ mp_root p = res_root r3 /\
    verifyProof (mp_leaf p) (mp_proof p) (Z.of_nat (mp_leafIndex p)) (res_root r3)
      = false.
Proof.
  destruct sample_three_appends as (db1 & db2 & db3 & r1 & r2 & A1 & A2 & A3 & P).
  exists db1, db2, db3, r1, r2. do 2 eexists.
  split; [exact A1|]. split; [exact A2|]. split; [exact A3|].
  split; [exact P|].
  cbn [mp_leaf mp_proof mp_leafIndex mp_root res_leaf res_root].
  split; [reflexivity|]. split; [reflexivity|].
  vm_compute. reflexivity.
Qed.

(** C2 (odd-leaf duplication shape), evaluated: after [recordA], [recordB]
    and [recordC] the root is
    [combine(combine(hA, hB), combine(hC, hC))] as claimed, but the proof
    stored for the third leaf is the one-element sequence [combine(hA, hB)],
    not [hC; combine(hA, hB)]. *)
Theorem third_leaf_root_and_proof :
  exists db1 db2 db3 r1 r2 r3 p,
    append [] requestA = Ok (db1, r1) /\ append db1 requestB = Ok (db2, r2) /\
    append db2 requestC = Ok (db3, r3) /\
    res_root r3 =
      combineHashes (combineHashes hashA hashB) (combineHashes hashC hashC) /\
    getProof db3 (res_index r3) = Some p /\
    mp_proof p = [combineHashes hashA hashB] /\
    mp_proof p <> [hashC; combineHashes hashA hashB].
Proof.
  destruct sample_three_appends as (db1 & db2 & db3 & r1 & r2 & A1 & A2 & A3 & P).
  exists db1, db2, db3, r1, r2. do 2 eexists.
  split; [exact A1|]. split; [exact A2|]. split; [exact A3|].
  cbn [res_root]. split; [reflexivity|]. split; [exact P|].
  cbn [mp_proof]. split; [reflexivity|].
  intros E. apply (f_equal (@length _)) in E. cbn [length] in E. lia.
Qed.

End StoredProofClaims.

(** ** Hexadecimal round trips *)

Section HexFacts.

Lemma hex_byte_round_trip (b : byte) :
  let z := SHA256.Z_of_byte b in
  Hex.unhex (Hex.digit (Z.shiftr z 4)) = Some (Z.shiftr z 4) /\
  Hex.unhex (Hex.digit (Z.land z 0xF)) = Some (Z.land z 0xF) /\
  SHA256.byte_of_Z (16 * Z.shiftr z 4 + Z.land z 0xF) = b.
Proof. destruct b; vm_compute; auto. Qed.

(** [Buffer.from(buf.toString('hex'), 'hex')] gives [buf] back, also when
    the string goes on with a character that is no hexadecimal digit, or
    with one more character and nothing after it. *)
Lemma decode_encode_then (bs : list byte) (rest : string) :
  (forall a b s, rest = String a (String b s) ->
     Hex.unhex a = None \/ Hex.unhex b = None) ->
  Hex.decode (Hex.encode bs ++ rest)%string = bs.
Proof.
  intros Hrest. induction bs as [|b bs IH].
  - cbn [Hex.encode fold_right]. rewrite string_app_nil.
    destruct rest as [|a [|b s]]; [reflexivity|reflexivity|].
    cbn [Hex.decode].
    destruct (Hrest a b s eq_refl) as [E|E]; rewrite E;
      [reflexivity|destruct (Hex.unhex a); reflexivity].
  - rewrite encode_cons, !string_app_cons. cbn [Hex.decode].
    destruct (hex_byte_round_trip b) as (E1 & E2 & E3).
    cbv zeta in E1, E2, E3. rewrite E1, E2, E3, IH. reflexivity.
Qed.

Lemma decode_encode (bs : list byte) : Hex.decode (Hex.encode bs) = bs.
Proof.
  rewrite <- (decode_encode_then bs EmptyString) at 2 by discriminate.
  f_equal. induction (Hex.encode bs) as [|c s IH]; [reflexivity|].
  rewrite string_app_cons, <- IH. reflexivity.
Qed.

Lemma encode_inj (bs bs' : list byte) : Hex.encode bs = Hex.encode bs' -> bs = bs'.
Proof.
  intros E. rewrite <- (decode_encode bs), <- (decode_encode bs'), E. reflexivity.
Qed.

Lemma unhex_upper c : Hex.unhex (upper_char c) = Hex.unhex c.
Proof.
  destruct c as [[] [] [] [] [] [] [] []]; vm_compute; reflexivity.
Qed.

(** Letter case is lost in decoding. *)
Lemma decode_toUpperCase (s : string) :
  Hex.decode (toUpperCase s) = Hex.decode s.
Proof.
  assert (H : forall n s, (String.length s <= n)%nat ->
              Hex.decode (toUpperCase s) = Hex.decode s).
  { induction n as [|n IH]; intros [|a [|b r]] Hl; cbn in Hl; try reflexivity;
      try lia.
    cbn [toUpperCase Hex.decode]. rewrite !unhex_upper, IH by lia. reflexivity. }
  apply (H (String.length s)). lia.
Qed.

End HexFacts.

(** ** Claims on signatures *)

Section SignatureClaims.

Import Crypto Samples.


Lemma verifySignature_true data signature publicKey :
  verifySignature data signature publicKey = true <->
  Secp256k1.ecdsaVerify (Hex.decode signature) (sha256 data) (Hex.decode publicKey)
    = Ok true.
Proof.
  unfold verifySignature, catch_false.
  destruct (Secp256k1.ecdsaVerify _ _ _) as [[|]|e]; split; congruence.
Qed.




(** C9 as stated fails: a signature string that is no hexadecimal string,
    the sample signature followed by [zz], or followed by a single digit, is
    accepted. *)
Lemma malformed_hex_accepted :
  verifySignature sampleMessage (sampleSignature ++ "zz")
    (publicKey sampleKeyPair) = true /\
  verifySignature sampleMessage (sampleSignature ++ "7")
    (publicKey sampleKeyPair) = true /\
  verifySignature sampleMessage sampleSignature
    (publicKey sampleKeyPair ++ "-not-hex") = true.
Proof.
  split; [vm_compute; reflexivity|].
  split; [vm_compute; reflexivity|].
  vm_compute; reflexivity.
Qed.

(** C9, amended (verification is total). [verifySignature] returns a
    boolean for every triple of strings: it is [true] exactly when the
    library, called on the decoded signature, the digest of the data and the
    decoded public key, returns [true], and [false] when the library returns
    [false] or throws. A decoded signature that is not 64 bytes long, a
    decoded public key that is neither 33 nor 65 bytes long or is no point
    of the curve, all yield [false]. Malformed hexadecimal is not refused as
    such: what follows the first character that is no hexadecimal digit is
    ignored. *)
Theorem verifySignature_total (data signature publicKey : string) :
  (verifySignature data signature publicKey = true <->
   Secp256k1.ecdsaVerify (Hex.decode signature) (sha256 data) (Hex.decode publicKey)
     = Ok true) /\
  (length (Hex.decode signature) <> 64%nat ->
   verifySignature data signature publicKey = false) /\
  (length (Hex.decode publicKey) <> 33%nat ->
   length (Hex.decode publicKey) <> 65%nat ->
   verifySignature data signature publicKey = false) /\
  (Secp256k1.pubkey_parse (Hex.decode publicKey) = None ->
   verifySignature data signature publicKey = false) /\
  (forall (sig key : list byte) (c c' : ascii) (junk junk' : string),
     Hex.unhex c = None -> Hex.unhex c' = None ->
     verifySignature data (Hex.encode sig ++ String c junk)
       (Hex.encode key ++ String c' junk') =
     verifySignature data (Hex.encode sig) (Hex.encode key)).
Proof.
  split; [apply verifySignature_true|].
  unfold verifySignature, Secp256k1.ecdsaVerify.
  split; [|split; [|split]].
  - intros Hl. apply Nat.eqb_neq in Hl. rewrite Hl. reflexivity.
  - intros H33 H65. apply Nat.eqb_neq in H33, H65. rewrite H33, H65.
    rewrite andb_false_r. reflexivity.
  - intros Hp. rewrite Hp.
    destruct (_ && _ && _)%bool; [|reflexivity].
    destruct (_ && _)%bool; reflexivity.
  - intros sig key c c' junk junk' Hc Hc'.
    rewrite !decode_encode_then, !decode_encode; [reflexivity| |];
      intros a b s E; inversion E; subst; auto.
Qed.

End SignatureClaims.

(** ** Canonical hashing: [hashData] against [appendLeaf] *)

Section Canonical.

Import JSON Crypto.

Lemma value_ind' (P : value -> Prop) :
  P JUndefined -> P JNull -> (forall b, P (JBool b)) -> (forall n, P (JNum n)) ->
  (forall s, P (JStr s)) ->
  (forall items, Forall P items -> P (JArr items)) ->
  (forall entries, Forall (fun kv => P (snd kv)) entries -> P (JObj entries)) ->
  forall v, P v.
Proof.
  intros HU HN HB HZ HS HA HO.
  fix IH 1. intros [| |b|n|s|items|entries].
  - exact HU.
  - exact HN.
  - apply HB.
  - apply HZ.
  - apply HS.
  - apply HA. induction items as [|x l IHl]; constructor; [apply IH|exact IHl].
  - apply HO. induction entries as [|[k x] l IHl]; constructor;
      [apply IH|exact IHl].
Qed.

Lemma ascii_compare_refl a : Ascii.compare a a = Eq.
Proof. unfold Ascii.compare. apply N.compare_refl. Qed.

Lemma string_leb_trans (a b c : string) :
  String.leb a b = true -> String.leb b c = true -> String.leb a c = true.
Proof.
  unfold String.leb. revert b c.
  induction a as [|x a IH]; intros [|y b] [|z c]; cbn; try congruence.
  unfold Ascii.compare.
  destruct (N.compare_spec (N_of_ascii x) (N_of_ascii y)) as [E1|L1|G1];
    destruct (N.compare_spec (N_of_ascii y) (N_of_ascii z)) as [E2|L2|G2];
    try congruence;
    destruct (N.compare_spec (N_of_ascii x) (N_of_ascii z)) as [E3|L3|G3];
    try congruence; try lia; intros H1 H2.
  apply (IH b c); assumption.
Qed.

#[export] Instance key_le_trans : Transitive key_le.
Proof. intros a b c. apply string_leb_trans. Qed.

#[export] Instance key_le_total : Total key_le.
Proof. intros a b. apply String.leb_total. Qed.

#[export] Instance key_le_antisym : AntiSymm (=) key_le.
Proof. intros a b H1 H2. apply String.leb_antisym; assumption. Qed.

(** Sorting forgets the order in which the keys were added. *)
Lemma sort_keys_Permutation (keys keys' : list string) :
  keys ≡ₚ keys' -> sort_keys keys = sort_keys keys'.
Proof.
  intros Hp. unfold sort_keys.
  apply (Sorted_unique key_le); try apply Sorted_merge_sort; try typeclasses eauto.
  rewrite !merge_sort_Permutation. exact Hp.
Qed.

Lemma get_Some_In P entries v : get P entries = Some v -> In (P, v) entries.
Proof.
  induction entries as [|[k x] l IH]; cbn; [discriminate|].
  destruct (String.eqb_spec k P) as [->|N]; intros H.
  - injection H as ->. left; reflexivity.
  - right. apply IH; exact H.
Qed.

Lemma get_None_keys P entries : get P entries = None <-> ~ In P (map fst entries).
Proof.
  induction entries as [|[k x] l IH]; cbn; [tauto|].
  destruct (String.eqb_spec k P) as [->|N].
  - split; [discriminate|]. intros H; exfalso; apply H; left; reflexivity.
  - rewrite IH. tauto.
Qed.

Lemma stringify_with_obj K entries :
  stringify_with K (JObj entries) =
    Some ("{" ++ commas (omap (printed K entries) K) ++ "}")%string.
Proof.
  cbn [stringify_with]. do 3 f_equal. apply (f_equal commas).
  match goal with
  | |- omap ?f ?L = omap ?g ?L =>
      set (F := f); set (G := g); assert (Hpt : forall P, F P = G P)
  end.
  { intros P. subst F G. unfold printed.
    induction entries as [|[k x] l IHl]; [reflexivity|].
    cbn [get]. destruct (String.eqb k P); [reflexivity|exact IHl]. }
  clearbody F G. induction K as [|P L IH]; [reflexivity|].
  simpl. rewrite Hpt. destruct (G P); [f_equal; exact IH|exact IH].
Qed.

(** [JSON.stringify] with a property list prints the same text for the same
    record, whatever the order of the entries. *)
Lemma stringify_with_same_record K a : forall b,
  same_record a b -> stringify_with K a = stringify_with K b.
Proof.
  induction a as [| |x|n|s|items IH|entries IH] using value_ind'; intros b Hs;
    inversion Hs; subst; try reflexivity.
  - cbn [stringify_with]. do 4 f_equal.
    match goal with H : Forall2 _ _ _ |- _ => revert H end.
    clear Hs. revert items'. induction IH as [|x l Hx Hl IHl]; intros l' H2;
      inversion H2; subst; [reflexivity|].
    cbn [map]. f_equal; [f_equal; apply Hx; assumption|apply IHl; assumption].
  - rewrite !stringify_with_obj. do 3 f_equal.
    match goal with H : _ ≡ₚ _ |- _ => rename H into Hperm end.
    match goal with H : Forall _ entries |- _ => rename H into Hall end.
    clear Hs.
    assert (Hpt : forall P, printed K entries P = printed K entries' P).
    { intros P. unfold printed. destruct (get P entries) as [v|] eqn:E.
      - apply get_Some_In, list_elem_of_In in E.
        rewrite Forall_forall in Hall, IH.
        destruct (Hall _ E) as (v' & Hg & Hv). cbn [fst snd] in *.
        pose proof (IH _ E v' Hv) as Hi. cbn [fst snd] in Hi.
        rewrite Hg, Hi. reflexivity.
      - apply get_None_keys in E.
        assert (E' : get P entries' = None).
        { apply get_None_keys. intros Hin. apply E.
          apply list_elem_of_In. rewrite Hperm. apply list_elem_of_In. exact Hin. }
        rewrite E'. reflexivity. }
    f_equal. set (F := printed K entries) in *. set (G := printed K entries') in *.
    clearbody F G. clear -Hpt. induction K as [|P K' IHK]; [reflexivity|].
    simpl. rewrite Hpt. destruct (G P); [f_equal; exact IHK|exact IHK].
Qed.

Lemma object_keys_same_record a b :
  same_record a b ->
  match object_keys a, object_keys b with
  | Ok k, Ok k' => k ≡ₚ k'
  | Throw e, Throw e' => e = e'
  | _, _ => False
  end.
Proof.
  intros Hs. inversion Hs; subst; cbn [object_keys]; auto.
  match goal with H : Forall2 _ _ _ |- _ => apply Forall2_length in H; rewrite H end.
  reflexivity.
Qed.

(** [hashData] is canonical: the same record in another key order, at any
    depth, has the same hash (or throws the same error). *)
Lemma hashData_same_record (a b : value) :
  same_record a b -> hashData a = hashData b.
Proof.
  intros Hs. inversion Hs as [| | | | |items items' Hf|entries entries' Hp Hf];
    subst; try reflexivity.
  - unfold hashData. cbn [object_keys bind].
    rewrite (Forall2_length _ _ _ Hf).
    rewrite (stringify_with_same_record _ _ _ Hs). reflexivity.
  - unfold hashData. cbn [object_keys bind].
    rewrite (sort_keys_Permutation _ _ Hp).
    rewrite (stringify_with_same_record _ _ _ Hs). reflexivity.
Qed.

End Canonical.

Section CanonicalClaims.

Import JSON Crypto MerkleTreeService Ledger Samples.

Lemma recordA_same_record : same_record recordA recordA'.
Proof.
  apply same_obj; [apply perm_swap|].
  repeat constructor; eexists; (split; [reflexivity|constructor]).
Qed.

(** C5 (canonicalization determinism) does not hold of [appendLeaf]:
    [recordA] and [recordA'] hold the same keys and values, added in
    different orders; [hashData] gives both the same hash, but the leaf hash
    that [appendLeaf] computes and returns differs between the two. *)
Theorem leaf_hash_depends_on_key_order :
  same_record recordA recordA' /\
  hashData recordA = hashData recordA' /\
  exists db r db' r',
    appendLeaf [] recordA batch None None = Ok (db, r) /\
    appendLeaf [] recordA' batch None None = Ok (db', r') /\
    res_leaf r <> res_leaf r'.
Proof.
  split; [exact recordA_same_record|].
  split; [exact (hashData_same_record _ _ recordA_same_record)|].
  do 4 eexists.
  split; [vm_compute; reflexivity|].
  split; [vm_compute; reflexivity|].
  cbn [res_leaf]. vm_compute. discriminate.
Qed.

End CanonicalClaims.

(** ** Claims on the verification route *)

Section RouteClaims.

Import VerifyRoute Samples.

(** C7 (the anchor check never rejects). For every request that passes
    validation and names a stored, active batch, whose QR signature (when a
    QR payload was sent) and Merkle inclusion proof are accepted: the
    handler answers with a result, not an error, and the result is verified
    whatever the anchor check does. When the check finds an anchor the mode
    is [both]; when it finds none, or throws, the mode is [merkle]. This
    holds for any body of the anchor check, in particular for the mock of the
    source. *)
Theorem anchor_check_never_rejects (check : Batch.t -> outcome bool)
    (batches : list Batch.t) (leaves : MerkleLeaf.collection) (body : Body)
    (batch : Batch.t)
    (Hvalid : validate body = true)
    (Hfound : batchToVerify batches body = Some batch)
    (Hsig : forall qr, qr_json body = Some qr -> verifyQRSignature qr batch = true)
    (Hincl : verifyMerkleInclusion leaves batch = true) :
  exists result,
    post_verify_with check batches leaves body = Json result /\
    verified result = true /\
    (check batch = Ok true -> mode result = both) /\
    (check batch = Ok false -> mode result = merkle) /\
    (forall e, check batch = Throw e -> mode result = merkle).
Proof.
  unfold post_verify_with. rewrite Hvalid, Hfound. cbn [negb].
  assert (Hq : match qr_json body with
               | Some qrPayload => negb (verifyQRSignature qrPayload batch)
               | None => false
               end = false).
  { destruct (qr_json body) as [qr|]; [|reflexivity].
    rewrite (Hsig qr eq_refl). reflexivity. }
  rewrite Hq, Hincl. cbn [negb]. unfold verifyBlockchainAnchor_with.
  destruct (check batch) as [[|]|e]; cbn [catch_false];
    eexists; (split; [reflexivity|]); cbn [verified mode];
    repeat split; congruence.
Qed.

Lemma anchor_check_never_rejects_witness :
  exists result,
    post_verify [sampleBatch None] sampleLedger
      (mkBody (Some sampleQRPayload) None) = Json result /\
    verified result = true /\ mode result = merkle.
Proof.
  destruct (anchor_check_never_rejects anchor_mock [sampleBatch None] sampleLedger
              (mkBody (Some sampleQRPayload) None) (sampleBatch None)
              ltac:(vm_compute; reflexivity) ltac:(vm_compute; reflexivity)
              ltac:(intros qr Hq; injection Hq as <-; vm_compute; reflexivity)
              ltac:(vm_compute; reflexivity))
    as (result & Hr & Hv & _ & Hm & _).
  exists result. split; [exact Hr|]. split; [exact Hv|].
  apply Hm. reflexivity.
Defined.

End RouteClaims.

(** ** The tree as the specification words it *)

Section TreeShape.

Import MerkleLeaf MerkleTreeService Ledger.

Lemma for_pairs_fst lvl : forall i ci pf, fst (for_pairs i ci lvl pf) = pair_up lvl.
Proof.
  induction lvl as [|x|x y l IH] using list_pair_ind; intros i ci pf;
    [reflexivity|reflexivity|].
  cbn [for_pairs pair_up].
  specialize (IH (i + 2)%nat ci (push_sibling i ci x y true pf)).
  destruct (for_pairs (i + 2) ci l _) as [nl p2]; cbn [fst] in *.
  rewrite IH. reflexivity.
Qed.

Lemma while_levels_fst fuel : forall lvl ci pf,
  fst (while_levels fuel lvl ci pf) = reduce_levels fuel lvl.
Proof.
  induction fuel as [|fuel IH]; intros lvl ci pf; [reflexivity|].
  cbn [while_levels reduce_levels].
  destruct (1 <? length lvl)%nat; [|reflexivity].
  pose proof (for_pairs_fst lvl 0 ci pf) as Hf.
  destruct (for_pairs 0 ci lvl pf) as [nl p']; cbn [fst] in Hf. subst nl.
  apply IH.
Qed.

Lemma root_and_proof_of_root hashes h :
  Some (rp_root (root_and_proof_of hashes h)) = spec_root (hashes ++ [h]).
Proof.
  unfold spec_root, root_and_proof_of.
  destruct hashes as [|h0 hashes]; [reflexivity|].
  set (all := (h0 :: hashes) ++ [h]).
  pose proof (while_levels_fst (length all) all (length (h0 :: hashes)) []) as Hf.
  pose proof (while_levels_ends (length all) all (length (h0 :: hashes)) []) as He.
  destruct (while_levels _ _ _ _) as [lvl pf]; cbn [fst rp_root] in *.
  rewrite <- Hf.
  assert (Hl : length lvl = 1%nat).
  { apply He. subst all. rewrite length_app; cbn [length]. lia. }
  destruct lvl as [|r [|]]; try discriminate. reflexivity.
Qed.

Lemma pair_up_length lvl : length (pair_up lvl) = ((length lvl + 1) / 2)%nat.
Proof. rewrite <- (for_pairs_fst lvl 0 0 []). apply for_pairs_length. Qed.

Lemma pair_up_app_even pre : forall rest,
  Nat.even (length pre) = true -> pair_up (pre ++ rest) = pair_up pre ++ pair_up rest.
Proof.
  induction pre as [|x|x y l IH] using list_pair_ind; intros rest He;
    [reflexivity|discriminate|].
  cbn [app pair_up]. rewrite IH by exact He. reflexivity.
Qed.

(** The pair that holds the last element of a level of even length pushes
    its left element, and no other pair pushes anything. *)
Lemma for_pairs_snd_last pre : forall i pf a b,
  Nat.even (length pre) = true ->
  snd (for_pairs i (i + length pre + 1) (pre ++ [a; b]) pf) = pf ++ [a].
Proof.
  induction pre as [|x|x y l IH] using list_pair_ind; intros i pf a b He;
    [|discriminate|].
  - cbn [app for_pairs snd length]. rewrite push_sibling_pair.
    replace (i + 0 + 1)%nat with (i + 1)%nat by lia.
    destruct (Nat.eqb_spec i (i + 1)); [lia|].
    rewrite Nat.eqb_refl. reflexivity.
  - cbn [app for_pairs length]. rewrite push_sibling_pair.
    destruct (Nat.eqb_spec i (i + S (S (length l)) + 1)); [lia|].
    destruct (Nat.eqb_spec (i + 1) (i + S (S (length l)) + 1)); [lia|].
    cbn [orb].
    specialize (IH (i + 2)%nat pf a b He).
    replace (i + 2 + length l + 1)%nat with (i + S (S (length l)) + 1)%nat in IH
      by lia.
    destruct (for_pairs (i + 2) _ (l ++ [a; b]) pf) as [nl p2]. exact IH.
Qed.

Lemma even_length_split (lvl : list string) (c : string) (pre : list string) :
  lvl = pre ++ [c] -> Nat.even (length lvl) = true ->
  exists pre' a, pre = pre' ++ [a] /\ Nat.even (length pre') = true.
Proof.
  intros -> He. rewrite length_app in He; cbn [length] in He.
  destruct pre as [|x pre] using rev_ind; [discriminate|].
  exists pre, x. split; [reflexivity|].
  rewrite length_app in He; cbn [length] in He.
  replace (length pre + 1 + 1)%nat with (S (S (length pre))) in He by lia.
  exact He.
Qed.

Lemma even_half_Z (m : nat) :
  Nat.even m = true ->
  Z.even (Z.of_nat (m + 1)) = false /\
  Z.of_nat (m + 1) / 2 = Z.of_nat (m / 2) /\
  ((m + 1) / 2 = m / 2)%nat.
Proof.
  intros He. apply Nat.even_spec in He as [q ->].
  assert (H0 : (2 * q / 2 = q)%nat)
    by (symmetry; apply (Nat.div_unique _ _ q 0); lia).
  assert (H1 : ((2 * q + 1) / 2 = q)%nat)
    by (symmetry; apply (Nat.div_unique _ _ q 1); lia).
  rewrite H0, H1. split; [|split; [|reflexivity]].
  - destruct (Z.even (Z.of_nat (2 * q + 1))) eqn:E; [|reflexivity].
    apply Z.even_spec in E as [k Hk]. lia.
  - symmetry. apply (Z.div_unique _ _ (Z.of_nat q) 1); lia.
Qed.

(** On a level of [2 ^ j] hashes the loop, tracking the last one, collects
    a proof that [verifyProof] folds back into the root. *)
Lemma while_levels_pow2 j : forall fuel lvl c pre pf,
  lvl = pre ++ [c] -> length lvl = (2 ^ j)%nat -> (length lvl <= S fuel)%nat ->
  exists root newpf,
    while_levels fuel lvl (length pre) pf = ([root], pf ++ newpf) /\
    verifyProof_loop c newpf (Z.of_nat (length pre)) = root.
Proof.
  induction j as [|j IH]; intros fuel lvl c pre pf Hl Hlen Hfuel.
  - subst lvl. rewrite length_app in Hlen; cbn in Hlen.
    destruct pre; [|cbn in Hlen; lia].
    exists c, []. rewrite app_nil_r. split; [|reflexivity].
    destruct fuel; reflexivity.
  - assert (Hev : Nat.even (length lvl) = true).
    { rewrite Hlen, Nat.pow_succ_r', Nat.even_mul. reflexivity. }
    destruct (even_length_split lvl c pre Hl Hev) as (pre' & a & -> & Hpre').
    assert (H2 : (2 <= length lvl)%nat).
    { rewrite Hlen, Nat.pow_succ_r'. pose proof (Nat.pow_nonzero 2 j). lia. }
    destruct fuel as [|fuel]; [lia|].
    cbn [while_levels].
    destruct (Nat.ltb_spec 1 (length lvl)) as [_|]; [|lia].
    subst lvl. rewrite <- app_assoc in *. cbn [app] in *.
    pose proof (for_pairs_fst (pre' ++ [a; c]) 0 (length (pre' ++ [a])) pf) as Hf.
    pose proof (for_pairs_snd_last pre' 0 pf a c Hpre') as Hs.
    rewrite length_app in *; cbn [length] in *.
    rewrite Nat.add_0_l in Hs.
    destruct (for_pairs 0 (length pre' + 1) (pre' ++ [a; c]) pf) as [nl p'].
    cbn [fst snd] in Hf, Hs. subst nl p'.
    rewrite pair_up_app_even by exact Hpre'. cbn [pair_up].
    destruct (even_half_Z _ Hpre') as (Hodd & Hdiv & Hhalf).
    assert (Hpl : length (pair_up pre') = ((length pre' + 1) / 2)%nat)
      by apply pair_up_length.
    rewrite Hhalf in Hpl.
    rewrite Hhalf, <- Hpl.
    assert (Hlen' : length (pair_up pre' ++ [combineHashes a c]) = (2 ^ j)%nat).
    { rewrite length_app, Hpl; cbn [length].
      rewrite Nat.pow_succ_r' in Hlen.
      apply Nat.even_spec in Hpre' as [q Hq]. rewrite Hq in *.
      replace (2 * q)%nat with (0 + q * 2)%nat by lia.
      rewrite Nat.div_add by lia. cbn. lia. }
    destruct (IH fuel _ (combineHashes a c) (pair_up pre') (pf ++ [a]) eq_refl Hlen')
      as (root & newpf & Hw & Hv).
    { rewrite Hlen'. rewrite Nat.pow_succ_r' in Hlen. lia. }
    exists root, (a :: newpf). split.
    + rewrite Hw, <- app_assoc. reflexivity.
    + cbn [verifyProof_loop]. rewrite Hodd, Hdiv, <- Hpl. exact Hv.
Qed.

End TreeShape.

(** ** Further properties of the ledger *)

Section LedgerProperties.

Import MerkleLeaf MerkleTreeService Ledger Samples.

(** A returning append on a ledger built by [appendLeaf], spelled out. *)
Lemma append_reachable_inv db rq db' r :
  reachable db -> append db rq = Ok (db', r) ->
  exists h,
    leafHashOf (leafData rq) = Ok h /\
    JSON.nullish (leafData rq) = false /\
    let rp := root_and_proof_of (map MerkleLeaf.hash db) h in
    r = mkAppendResult (length db) (rp_root rp) h /\
    db' = updateMany_root
            (db ++ [mk (length db) h (leafData rq) (batchId rq) (eventId rq)
                       (leafType rq) (rp_root rp) (rp_proof rp)])
            (rp_root rp) /\
    getProof db' (length db) =
      Some (mkMerkleProof h (rp_proof rp) (length db) (rp_root rp)).
Proof.
  intros Hr Ha. pose proof (reachable_dense _ Hr) as Hd.
  destruct (JSON.nullish (leafData rq)) eqn:Hn.
  { destruct (appendLeaf_nullish db _ (leafType rq) (batchId rq) (eventId rq) Hd Hn)
      as [err E]. unfold append in Ha. rewrite E in Ha. discriminate. }
  destruct (leafHashOf_defined _ Hn) as [h Hh].
  exists h. split; [exact Hh|]. split; [reflexivity|]. cbv zeta.
  unfold append in Ha. rewrite (appendLeaf_dense _ _ _ _ _ h Hd Hn Hh) in Ha.
  inversion Ha; subst; clear Ha. split; [reflexivity|]. split; [reflexivity|].
  unfold getProof, updateMany_root. rewrite find_map_index by reflexivity.
  rewrite findOne_index_app_new by auto. reflexivity.
Qed.

Lemma sampleLedger_reachable : reachable sampleLedger.
Proof.
  eapply (reachable_append [] (mkRequest sampleBatchData batch (Some "FARM1"%string) None));
    [apply reachable_empty|].
  vm_compute. reflexivity.
Qed.

Lemma sampleLedger_append :
  exists db' r, append sampleLedger requestB = Ok (db', r) /\ length db' = (2 ^ 1)%nat.
Proof. do 2 eexists. split; vm_compute; reflexivity. Qed.

(** Proof soundness where it holds: when the ledger holds a power of two of
    leaves after an append, the proof stored for the new leaf is accepted by
    [verifyProof] under the new leaf's index and the returned root. *)
Theorem proof_sound_for_power_of_two (db : collection) (rq : Request)
    (db' : collection) (r : AppendResult) (k : nat)
    (Hreach : reachable db) (Happend : append db rq = Ok (db', r))
    (Hsize : length db' = (2 ^ k)%nat) :
  exists p,
    getProof db' (res_index r) = Some p /\
    mp_leaf p = res_leaf r /\ mp_root p = res_root r /\
    verifyProof (mp_leaf p) (mp_proof p) (Z.of_nat (mp_leafIndex p)) (res_root r)
      = true.
Proof.
  destruct (append_reachable_inv _ _ _ _ Hreach Happend)
    as (h & _ & _ & Hr & Hdb & Hp). cbv zeta in *.
  set (rp := root_and_proof_of (map MerkleLeaf.hash db) h) in *.
  subst r. cbn [res_index res_leaf res_root].
  eexists. split; [exact Hp|]. cbn [mp_leaf mp_root mp_proof mp_leafIndex].
  split; [reflexivity|]. split; [reflexivity|].
  assert (Hlen : length (map MerkleLeaf.hash db ++ [h]) = (2 ^ k)%nat).
  { rewrite <- Hsize, Hdb, updateMany_root_length, !length_app, length_map.
    reflexivity. }
  subst rp. unfold root_and_proof_of.
  destruct (map MerkleLeaf.hash db) as [|h0 hs] eqn:Hm.
  - destruct db; [|discriminate]. cbn [rp_root rp_proof length].
    rewrite verifyProof_nil. apply String.eqb_refl.
  - destruct (while_levels_pow2 k (length ((h0 :: hs) ++ [h])) ((h0 :: hs) ++ [h])
                h (h0 :: hs) [] eq_refl Hlen) as (root & newpf & Hw & Hv); [lia|].
    rewrite Hw. cbn [rp_root rp_proof hd app].
    assert (Hl : length (h0 :: hs) = length db) by (rewrite <- Hm; apply length_map).
    rewrite <- Hl. unfold verifyProof. rewrite Hv. apply String.eqb_refl.
Qed.

Lemma proof_sound_for_power_of_two_witness :
  exists db' r p,
    append sampleLedger requestB = Ok (db', r) /\
    getProof db' (res_index r) = Some p /\
    verifyProof (mp_leaf p) (mp_proof p) (Z.of_nat (mp_leafIndex p)) (res_root r)
      = true.
Proof.
  destruct sampleLedger_append as (db' & r & Ha & Hl).
  destruct (proof_sound_for_power_of_two sampleLedger requestB db' r 1
              sampleLedger_reachable Ha Hl) as (p & Hp & _ & _ & Hv).
  exists db', r, p. auto.
Defined.



Lemma updateMany_root_Forall db root :
  Forall (fun leaf => root_hash leaf = root) (updateMany_root db root).
Proof.
  unfold updateMany_root. apply Forall_forall. intros x Hx.
  apply list_elem_of_fmap in Hx as (y & -> & _). reflexivity.
Qed.

(** Invariant I3 and more: after an append the current root is the returned
    root, and it is the root recorded on every stored leaf. *)
Theorem getCurrentRoot_after_append (db : collection) (rq : Request)
    (db' : collection) (r : AppendResult)
    (Hreach : reachable db) (Happend : append db rq = Ok (db', r)) :
  getCurrentRoot db' = Some (res_root r) /\
  Forall (fun leaf => root_hash leaf = res_root r) db'.
Proof.
  pose proof (reachable_dense _ Hreach) as Hd.
  destruct (append_dense _ _ _ _ Hd Happend) as (Hd' & Hlen & _).
  destruct (append_shape _ _ _ _ Happend) as (doc & Hdb & _).
  assert (Hall : Forall (fun leaf => root_hash leaf = res_root r) db')
    by (rewrite Hdb; apply updateMany_root_Forall).
  split; [|exact Hall].
  unfold getCurrentRoot. rewrite findOne_last_dense by exact Hd'.
  destruct (last db') as [l|] eqn:El.
  - rewrite Forall_forall in Hall. rewrite (Hall l); [reflexivity|].
    eapply last_Some_elem_of; eauto.
  - apply last_None in El. rewrite El in Hlen. discriminate.
Qed.

Lemma getCurrentRoot_after_append_witness :
  exists db' r,
    append sampleLedger requestB = Ok (db', r) /\
    getCurrentRoot db' = Some (res_root r).
Proof.
  destruct sampleLedger_append as (db' & r & Ha & _).
  exists db', r. split; [exact Ha|].
  exact (proj1 (getCurrentRoot_after_append sampleLedger requestB db' r
                  sampleLedger_reachable Ha)).
Defined.

(** [getProof] on a ledger built by [appendLeaf]: [null] exactly for the
    indices from the number of leaves on, and otherwise the proof of the
    leaf at that position, which carries that index. *)
Theorem getProof_range (db : collection) (i : nat) (Hreach : reachable db) :
  (getProof db i = None <-> (length db <= i)%nat) /\
  (forall p, getProof db i = Some p ->
     mp_leafIndex p = i /\
     exists leaf, db !! i = Some leaf /\ mp_leaf p = MerkleLeaf.hash leaf /\
                  mp_proof p = proof leaf /\ mp_root p = root_hash leaf).
Proof.
  pose proof (reachable_dense _ Hreach) as Hd. unfold getProof.
  destruct (db !! i) as [x|] eqn:E.
  - rewrite (findOne_index_dense _ _ _ Hd E).
    pose proof (lookup_lt_Some _ _ _ E). split.
    + split; [discriminate|lia].
    + intros p Hp. inversion Hp; subst; cbn.
      split; [eapply dense_lookup; eauto|]. exists x. auto.
  - pose proof (lookup_ge_None_1 _ _ E).
    destruct (findOne_index db i) as [y|] eqn:F.
    + unfold findOne_index in F. apply find_some in F as [Hy Hi].
      apply Nat.eqb_eq in Hi. apply list_elem_of_In in Hy.
      pose proof (dense_index_lt _ _ Hd Hy). lia.
    + split; [tauto|discriminate].
Qed.

Lemma getProof_range_witness :
  getProof sampleLedger 1 = None /\ getProof sampleLedger 0 <> None.
Proof.
  destruct (getProof_range sampleLedger 1 sampleLedger_reachable) as [H1 _].
  destruct (getProof_range sampleLedger 0 sampleLedger_reachable) as [H0 _].
  split; [apply H1; vm_compute; lia|].
  intros E. apply H0 in E. vm_compute in E. lia.
Defined.

(** [getBatchLeaves] returns the stored leaves of the batch, all of them and
    no other, by increasing index. *)
Theorem getBatchLeaves_spec (db : collection) (batchId : string) :
  Sorted index_le (getBatchLeaves db batchId) /\
  forall leaf,
    leaf ∈ getBatchLeaves db batchId <->
    leaf ∈ db /\ batch_id leaf = Some batchId.
Proof.
  unfold getBatchLeaves, find_batch, find_sorted. split.
  - apply Sorted_merge_sort. typeclasses eauto.
  - intros leaf. rewrite merge_sort_Permutation, !list_elem_of_In, filter_In.
    destruct (batch_id leaf) as [b|]; [|split; intros [? ?]; congruence].
    destruct (String.eqb_spec b batchId); split; intros [? ?]; split;
      congruence.
Qed.

(** The root that an append returns is the root of the tree that the
    specification describes over all the stored leaf hashes. *)
Theorem root_matches_specification (db : collection) (rq : Request)
    (db' : collection) (r : AppendResult)
    (Hreach : reachable db) (Happend : append db rq = Ok (db', r)) :
  spec_root (map MerkleLeaf.hash db') = Some (res_root r).
Proof.
  destruct (append_reachable_inv _ _ _ _ Hreach Happend)
    as (h & _ & _ & -> & -> & _).
  cbn [res_root]. unfold updateMany_root.
  rewrite map_map. cbn [MerkleLeaf.hash]. rewrite map_app. cbn [map MerkleLeaf.hash].
  symmetry. apply root_and_proof_of_root.
Qed.

Lemma root_matches_specification_witness :
  exists db' r,
    append sampleLedger requestB = Ok (db', r) /\
    spec_root (map MerkleLeaf.hash db') = Some (res_root r).
Proof.
  destruct sampleLedger_append as (db' & r & Ha & _).
  exists db', r. split; [exact Ha|].
  exact (root_matches_specification sampleLedger requestB db' r
           sampleLedger_reachable Ha).
Defined.

End LedgerProperties.

(** ** Further properties of hashing, encoding and signing *)

Section CryptoProperties.

Import JSON Crypto Samples.

(** Hexadecimal strings are a faithful wire format for buffers:
    [buf.toString('hex')] has two characters per byte, and
    [Buffer.from(., 'hex')] gives the buffer back, whatever the letter case
    of the string. *)
Theorem hex_round_trip (bs : list byte) :
  String.length (Hex.encode bs) = (2 * length bs)%nat /\
  Hex.decode (Hex.encode bs) = bs /\
  Hex.decode (toUpperCase (Hex.encode bs)) = bs.
Proof.
  split; [apply encode_length|]. split; [apply decode_encode|].
  rewrite decode_toUpperCase. apply decode_encode.
Qed.

(** Every hash of the ledger is 64 hexadecimal characters long: leaf hashes,
    combined hashes, and so the roots. *)
Theorem hashes_are_64_characters (data left_ right_ : string) :
  String.length (MerkleTreeService.hash data) = 64%nat /\
  String.length (MerkleTreeService.combineHashes left_ right_) = 64%nat /\
  forall v h, MerkleTreeService.leafHashOf v = Ok h -> String.length h = 64%nat.
Proof.
  split; [apply sha256_hex_length|]. split; [apply sha256_hex_length|].
  intros v h. unfold MerkleTreeService.leafHashOf.
  destruct (stringify v); [|discriminate].
  intros H; inversion H; subst. apply sha256_hex_length.
Qed.

(** [hashData] is canonical: two records that differ only in the order of
    their keys, at any depth, get the same hash. *)
Theorem hashData_ignores_key_order (a b : value) (Hsame : same_record a b) :
  hashData a = hashData b.
Proof. exact (hashData_same_record a b Hsame). Qed.

Lemma hashData_ignores_key_order_witness : hashData recordA = hashData recordA'.
Proof. exact (hashData_ignores_key_order recordA recordA' recordA_same_record). Defined.

Lemma stringify_with_defined K v :
  v <> JUndefined -> exists s, stringify_with K v = Some s.
Proof.
  destruct v as [| |[|]| | | |]; intros H; try congruence; eexists; reflexivity.
Qed.

(** [hashData] throws on [null] and [undefined] ([Object.keys] refuses
    them) and returns a 64-character hash for every other value. *)
Theorem hashData_throws_only_on_nullish (data : value) :
  match data with
  | JUndefined | JNull => hashData data = Throw TypeError
  | _ => exists h, hashData data = Ok h /\ String.length h = 64%nat
  end.
Proof.
  assert (Hlen : forall s, String.length (Hex.encode (sha256 s)) = 64%nat)
    by (intros s; apply sha256_hex_length).
  destruct data as [| |b|n|s|items|entries]; try reflexivity;
    unfold hashData; cbn [object_keys bind];
    try (match goal with
         | |- context [stringify_with ?K ?v] =>
             destruct (stringify_with_defined K v ltac:(discriminate)) as [t ->]
         end);
    eexists; (split; [reflexivity|apply Hlen]).
Qed.

Lemma printed_ext K entries entries' P :
  match get P entries, get P entries' with
  | Some v, Some v' => stringify_with K v = stringify_with K v'
  | None, None => True
  | _, _ => False
  end ->
  printed K entries P = printed K entries' P.
Proof.
  unfold printed. destruct (get P entries), (get P entries'); try tauto.
  intros ->. reflexivity.
Qed.

Lemma stringify_with_obj_ext K entries entries' :
  (forall P, In P K -> printed K entries P = printed K entries' P) ->
  stringify_with K (JObj entries) = stringify_with K (JObj entries').
Proof.
  intros H. rewrite !stringify_with_obj. do 3 f_equal. apply (f_equal commas).
  set (F := printed K entries) in *. set (G := printed K entries') in *.
  clearbody F G. induction K as [|P K' IH]; [reflexivity|].
  simpl. rewrite (H P) by (left; reflexivity).
  assert (IH' : omap F K' = omap G K') by (apply IH; intros Q HQ; apply H; right; exact HQ).
  destruct (G P); [f_equal; exact IH'|exact IH'].
Qed.

Lemma batch_keys_sorted :
  property_list []
    (sort_keys ["batch_id"; "farmer_id"; "crop"; "location"; "metadata";
                "timestamp"]%string) = batch_keys.
Proof. vm_compute. reflexivity. Qed.

(** What [createBatchHash] does not read. The hash depends on [batchData]
    only through its six properties [batch_id], [farmer_id], [crop],
    [location], [metadata] and [timestamp]; and because the sorted key list
    is passed to [JSON.stringify] as replacer, which filters nested objects
    too, of [location] only the properties named like one of these six
    enter the hash: two batches that differ in the coordinates of their
    location alone get the same batch hash. *)
Theorem createBatchHash_ignores_location_fields (now : string)
    (entries entries' : list (string * value))
    (loc loc' : list (string * value))
    (Hloc : get "location"%string entries = Some (JObj loc))
    (Hloc' : get "location"%string entries' = Some (JObj loc'))
    (Hsame : forall P, In P batch_keys -> get P loc = get P loc')
    (Hrest : forall P, In P batch_keys -> P <> "location"%string ->
                       get P entries = get P entries') :
  createBatchHash now (JObj entries) = createBatchHash now (JObj entries').
Proof.
  unfold createBatchHash, prop. cbn [bind].
  rewrite Hloc, Hloc'.
  rewrite <- !(Hrest _) by (unfold batch_keys; cbn; intuition discriminate).
  cbn [default].
  unfold hashData. cbn [object_keys bind map fst].
  rewrite batch_keys_sorted.
  match goal with
  | |- match ?a with _ => _ end = match ?b with _ => _ end =>
      assert (E : a = b); [|rewrite E; reflexivity]
  end.
  apply stringify_with_obj_ext. intros P HP. apply printed_ext.
  assert (Hl : stringify_with batch_keys (JObj loc) =
               stringify_with batch_keys (JObj loc')).
  { apply stringify_with_obj_ext. intros Q HQ. apply printed_ext.
    rewrite (Hsame Q HQ). destruct (get Q loc'); auto. }
  unfold batch_keys in HP. cbn [In] in HP.
  destruct HP as [<-|[<-|[<-|[<-|[<-|[<-|[]]]]]]]; cbn [get String.eqb Ascii.eqb Bool.eqb];
    try reflexivity; exact Hl.
Qed.

Lemma createBatchHash_ignores_location_fields_witness :
  createBatchHash "2025-06-01T00:00:00.000Z" sampleBatchData =
  createBatchHash "2025-06-01T00:00:00.000Z" sampleBatchData_moved.
Proof.
  apply (createBatchHash_ignores_location_fields _ _ _
           [("lat", JNum 12); ("lng", JNum 77)]%string
           [("lat", JNum 48); ("lng", JNum 2)]%string);
    try reflexivity.
  - intros P HP. unfold batch_keys in HP. cbn [In] in HP.
    destruct HP as [<-|[<-|[<-|[<-|[<-|[<-|[]]]]]]]; reflexivity.
  - intros P HP HN. unfold batch_keys in HP. cbn [In] in HP.
    destruct HP as [<-|[<-|[<-|[<-|[<-|[<-|[]]]]]]]; try reflexivity; congruence.
Defined.

End CryptoProperties.

Section KeyProperties.

Import Crypto Samples.

Lemma to_bytes32_length x : length (Secp256k1.to_bytes32 x) = 32%nat.
Proof. unfold Secp256k1.to_bytes32. rewrite length_map. apply be_bytes_length. Qed.

Lemma sign_loop_length tries : forall st z d sig,
  Secp256k1.sign_loop tries st z d = Ok sig -> length sig = 64%nat.
Proof.
  induction tries as [|tries IH]; intros [K V] z d sig; cbn [Secp256k1.sign_loop];
    [discriminate|].
  destruct (Secp256k1.sign_with_nonce _ _ _) as [[r s]|].
  - intros H. assert (E : sig = Secp256k1.to_bytes32 r ++ Secp256k1.to_bytes32 s)
      by congruence.
    rewrite E, length_app, !to_bytes32_length. reflexivity.
  - apply IH.
Qed.

Lemma ecdsaSign_length msg32 seckey sig :
  Secp256k1.ecdsaSign msg32 seckey = Ok sig -> length sig = 64%nat.
Proof.
  unfold Secp256k1.ecdsaSign.
  destruct (_ && _)%bool; [|discriminate].
  destruct (Secp256k1.valid_seckey _); [|discriminate].
  apply sign_loop_length.
Qed.


Lemma privateKeyVerify_true seckey :
  Secp256k1.privateKeyVerify seckey = Ok true ->
  length seckey = 32%nat /\
  Secp256k1.valid_seckey (Secp256k1.of_bytes seckey) = true.
Proof.
  unfold Secp256k1.privateKeyVerify.
  destruct (Nat.eqb_spec (length seckey) 32); [|discriminate].
  intros H; inversion H. auto.
Qed.

(** [signData] signs only with a valid private key: when it returns, the
    key string decodes to 32 bytes that are a number between 1 and the group
    order minus 1, and the result is the 128 hexadecimal characters of a
    64-byte signature; a key of 32 bytes that is zero or not below the group
    order makes it throw "Invalid private key", whatever the data. *)
Theorem signData_needs_valid_key (data privateKey : string) :
  (forall signature, signData data privateKey = Ok signature ->
     length (Hex.decode privateKey) = 32%nat /\
     Secp256k1.valid_seckey (Secp256k1.of_bytes (Hex.decode privateKey)) = true /\
     String.length signature = 128%nat /\
     length (Hex.decode signature) = 64%nat) /\
  (length (Hex.decode privateKey) = 32%nat ->
   Secp256k1.valid_seckey (Secp256k1.of_bytes (Hex.decode privateKey)) = false ->
   signData data privateKey = Throw InvalidPrivateKey).
Proof.
  unfold signData. split.
  - intros signature.
    destruct (Secp256k1.privateKeyVerify _) as [[|]|e] eqn:Ev; cbn [bind negb];
      try discriminate.
    destruct (Secp256k1.ecdsaSign _ _) as [sig|e] eqn:Es; cbn [bind];
      [|discriminate].
    intros H. assert (E : signature = Hex.encode sig) by congruence. subst signature.
    apply ecdsaSign_length in Es. apply privateKeyVerify_true in Ev as [Hl Hv].
    rewrite encode_length, decode_encode, Es. auto.
  - intros Hl Hv. unfold Secp256k1.privateKeyVerify. rewrite Hl, Hv. reflexivity.
Qed.



Lemma decode_length_le (s : string) :
  (2 * length (Hex.decode s) <= String.length s)%nat.
Proof.
  enough (H : (2 * length (Hex.decode s) <= String.length s)%nat /\
              forall a, (2 * length (Hex.decode (String a s)) <= S (String.length s))%nat)
    by apply H.
  induction s as [|b s [IH1 IH2]].
  - split; [cbn; lia|intros a; cbn; lia].
  - split; [apply IH2|]. intros a. cbn [Hex.decode String.length].
    destruct (Hex.unhex a), (Hex.unhex b); cbn [length]; lia.
Qed.

(** [verifySignature] rejects what is too short to be a signature or a key:
    a signature string of fewer than 128 characters, or a public key string
    of fewer than 66, gives [false] for every message (the package's
    exception is caught). *)
Theorem verifySignature_rejects_short_inputs (data signature publicKey : string)
    (Hshort : (String.length signature < 128)%nat \/
              (String.length publicKey < 66)%nat) :
  verifySignature data signature publicKey = false.
Proof.
  unfold verifySignature, Secp256k1.ecdsaVerify.
  pose proof (decode_length_le signature) as Hs.
  pose proof (decode_length_le publicKey) as Hp.
  destruct Hshort as [H|H].
  - destruct (Nat.eqb_spec (length (Hex.decode signature)) 64) as [E|_]; [lia|].
    reflexivity.
  - destruct (Nat.eqb_spec (length (Hex.decode publicKey)) 33) as [E|_]; [lia|].
    destruct (Nat.eqb_spec (length (Hex.decode publicKey)) 65) as [E|_]; [lia|].
    rewrite !andb_false_r. reflexivity.
Qed.

Lemma verifySignature_rejects_short_inputs_witness :
  verifySignature sampleMessage "3045" (publicKey sampleKeyPair) = false.
Proof.
  apply verifySignature_rejects_short_inputs. left. cbn. lia.
Defined.

End KeyProperties.

(** ** The routes *)

Section RouteProperties.

Import MerkleLeaf MerkleTreeService Ledger VerifyRoute Samples.

(** The verdict of [POST /verify], for any body of the anchor check. The
    handler passes an error on exactly for a body that fails validation, with
    status 400. Otherwise it answers, and the answer is verified exactly when
    an active batch is found, its QR signature (when a QR payload was sent)
    is accepted and the inclusion check passes. An answer that is not
    verified carries no proof and no transaction; a transaction is reported
    only in mode [both], and the mode is never [blockchain]. *)
Theorem verification_verdict (check : Batch.t -> outcome bool)
    (batches : list Batch.t) (leaves : collection) (body : Body) :
  (forall status, post_verify_with check batches leaves body = NextError status <->
     VerifyRoute.validate body = false /\ status = 400%nat) /\
  (forall r, post_verify_with check batches leaves body = Json r ->
     (verified r = true <->
        exists batch,
          batchToVerify batches body = Some batch /\
          (forall qr, qr_json body = Some qr -> verifyQRSignature qr batch = true) /\
          verifyMerkleInclusion leaves batch = true) /\
     (verified r = false ->
        mode r = merkle /\ merkle_proof r = None /\
        VerifyRoute.blockchain_tx r = None) /\
     mode r <> blockchain /\
     (forall tx, VerifyRoute.blockchain_tx r = Some tx ->
        mode r = both /\ verified r = true)).
Proof.
  unfold post_verify_with.
  destruct (VerifyRoute.validate body) eqn:Hv; cbn [negb].
  2:{ split.
      - intros status. split; [intros H; inversion H; auto|].
        intros [_ ->]. reflexivity.
      - intros r H. discriminate. }
  destruct (batchToVerify batches body) as [batch|] eqn:Hb.
  2:{ split; [intros status; split; [discriminate|intros [? _]; discriminate]|].
      intros r H. inversion H; subst; clear H.
      cbn [verified mode merkle_proof VerifyRoute.blockchain_tx].
      split; [|split; [auto|split; [discriminate|discriminate]]].
      split; [discriminate|]. intros (b & Hb' & _). discriminate. }
  assert (Hq : match qr_json body with
               | Some qrPayload => negb (verifyQRSignature qrPayload batch)
               | None => false
               end = false <->
               forall qr, qr_json body = Some qr -> verifyQRSignature qr batch = true).
  { destruct (qr_json body) as [qr|].
    - split.
      + intros H qr' E. inversion E; subst. apply negb_false_iff in H. exact H.
      + intros H. rewrite (H qr eq_refl). reflexivity.
    - split; [discriminate|reflexivity]. }
  destruct (match qr_json body with
            | Some qrPayload => negb (verifyQRSignature qrPayload batch)
            | None => false
            end) eqn:Hsig.
  { split; [intros status; split; [discriminate|intros [? _]; discriminate]|].
    intros r H. inversion H; subst; clear H.
    cbn [verified mode merkle_proof VerifyRoute.blockchain_tx].
    split; [|split; [auto|split; [discriminate|discriminate]]].
    split; [discriminate|]. intros (b & Hb' & Hs & _).
    assert (Eb : b = batch) by congruence. subst b.
    destruct Hq as [_ Hq]. specialize (Hq Hs). discriminate. }
  destruct (verifyMerkleInclusion leaves batch) eqn:Hi; cbn [negb].
  2:{ split; [intros status; split; [discriminate|intros [? _]; discriminate]|].
      intros r H. inversion H; subst; clear H.
      cbn [verified mode merkle_proof VerifyRoute.blockchain_tx].
      split; [|split; [auto|split; [discriminate|discriminate]]].
      split; [discriminate|]. intros (b & Hb' & _ & Hi').
      assert (Eb : b = batch) by congruence. subst b.
      rewrite Hi in Hi'. discriminate. }
  assert (Hex : exists b, Some batch = Some b /\
            (forall qr, qr_json body = Some qr -> verifyQRSignature qr b = true) /\
            verifyMerkleInclusion leaves b = true).
  { exists batch. split; [reflexivity|]. split; [apply Hq; reflexivity|exact Hi]. }
  destruct (verifyBlockchainAnchor_with check batch).
  - split; [intros status; split; [discriminate|intros [? _]; discriminate]|].
    intros r H. inversion H; subst; clear H.
    cbn [verified mode merkle_proof VerifyRoute.blockchain_tx].
    split; [split; [intros _; exact Hex|reflexivity]|].
    split; [discriminate|]. split; [discriminate|]. auto.
  - split; [intros status; split; [discriminate|intros [? _]; discriminate]|].
    intros r H. inversion H; subst; clear H.
    cbn [verified mode merkle_proof VerifyRoute.blockchain_tx].
    split; [split; [intros _; exact Hex|reflexivity]|].
    split; [discriminate|]. split; [discriminate|]. discriminate.
Qed.

Lemma reachable_one db :
  reachable db -> length db = 1%nat ->
  exists h d b e ty, db = [mk 0 h d b e ty h []].
Proof.
  intros Hr Hl. destruct Hr as [|db0 rq db' r Hr0 Ha]; [discriminate|].
  pose proof (reachable_dense _ Hr0) as Hd.
  destruct (append_dense _ _ _ _ Hd Ha) as (_ & Hlen & _).
  destruct db0; [|cbn in Hlen; lia].
  destruct (append_reachable_inv _ _ _ _ Hr0 Ha) as (h & _ & _ & _ & Hdb & _).
  cbv zeta in Hdb. cbn [map root_and_proof_of rp_root rp_proof app length] in Hdb.
  unfold updateMany_root in Hdb. cbn [map index MerkleLeaf.hash data batch_id event_id
    type proof] in Hdb.
  subst db'. eauto 10.
Qed.

(** The inclusion check never compares the batch's [merkle_leaf] with the
    leaf it verifies: the hash only selects an index, and an unknown hash
    selects index 0. So on a ledger that holds one leaf every batch passes
    the inclusion check, and a request by [batch_id] for any stored, active
    batch is answered as verified, whatever leaf hash the batch records. *)
Theorem single_leaf_ledger_verifies_any_batch (db : collection) (batch : Batch.t)
    (Hreach : reachable db) (Hone : length db = 1%nat) :
  verifyMerkleInclusion db batch = true /\
  forall check batches id,
    id <> EmptyString -> Batch.findOne_active batches id = Some batch ->
    exists r,
      post_verify_with check batches db (mkBody None (Some id)) = Json r /\
      verified r = true.
Proof.
  destruct (reachable_one _ Hreach Hone) as (h & d & b & e & ty & ->).
  assert (Hi : verifyMerkleInclusion [mk 0 h d b e ty h []] batch = true).
  { unfold verifyMerkleInclusion, getMerkleLeafIndex, findOne_hash.
    cbn [List.find MerkleLeaf.hash].
    assert (Hidx : match (if String.eqb h (Batch.merkle_leaf batch)
                          then Some (mk 0 h d b e ty h []) else None) with
                   | Some merkleLeaf => index merkleLeaf
                   | None => 0%nat
                   end = 0%nat) by (destruct (String.eqb _ _); reflexivity).
    rewrite Hidx. unfold getProof, findOne_index.
    cbn [List.find index Nat.eqb mp_leaf mp_proof mp_leafIndex mp_root
         MerkleLeaf.hash proof root_hash].
    rewrite verifyProof_nil. apply String.eqb_refl. }
  split; [exact Hi|].
  intros check batches id Hid Hf. unfold post_verify_with, VerifyRoute.validate, batchToVerify.
  cbn [qr_json VerifyRoute.body_batch_id].
  assert (Hne : String.eqb id EmptyString = false) by (apply String.eqb_neq; exact Hid).
  rewrite Hne, Hf. cbn [negb]. rewrite Hi. cbn [negb].
  destruct (verifyBlockchainAnchor_with check batch); eexists; split; reflexivity.
Qed.

Lemma single_leaf_ledger_verifies_any_batch_witness :
  verifyMerkleInclusion sampleLedger (sampleBatch None) = true /\
  exists r,
    post_verify [Batch.mk "B-404" "F" "rice" JSON.JNull JSON.JNull []
                   "not a leaf hash" None true] sampleLedger
                (mkBody None (Some "B-404"%string)) = Json r /\
    verified r = true.
Proof.
  split.
  - exact (proj1 (single_leaf_ledger_verifies_any_batch sampleLedger (sampleBatch None)
                    sampleLedger_reachable eq_refl)).
  - refine (proj2 (single_leaf_ledger_verifies_any_batch sampleLedger
                     (Batch.mk "B-404" "F" "rice" JSON.JNull JSON.JNull []
                               "not a leaf hash" None true)
                     sampleLedger_reachable eq_refl)
                  anchor_mock _ "B-404"%string _ _).
    + discriminate.
    + reflexivity.
Defined.



(** What [POST /verify] does not read. Of a QR payload only [batch_id],
    [farmer_id], [timestamp], [farmer_pubkey] and [signature] enter the
    answer: its [ipfs_hash] and its [merkle_leaf] can be replaced by any
    strings without changing it (the inclusion check takes the leaf hash
    from the stored batch). And a [batch_id] sent beside a QR payload is
    validated but not used. *)
Theorem verification_ignores_qr_leaf (check : Batch.t -> outcome bool)
    (batches : list Batch.t) (leaves : collection) (qr : QRPayload)
    (id : option string) (ipfs_hash merkle_leaf : string) :
  post_verify_with check batches leaves (mkBody (Some qr) id) =
  post_verify_with check batches leaves
    (mkBody (Some (mkQRPayload (qr_batch_id qr) (qr_farmer_id qr) (qr_timestamp qr)
                     ipfs_hash merkle_leaf (qr_farmer_pubkey qr) (qr_signature qr)))
            id) /\
  (VerifyRoute.validate (mkBody (Some qr) id) = true ->
   post_verify_with check batches leaves (mkBody (Some qr) id) =
   post_verify_with check batches leaves (mkBody (Some qr) None)).
Proof.
  split.
  - destruct qr. reflexivity.
  - unfold post_verify_with, batchToVerify. cbn [qr_json].
    intros ->. reflexivity.
Qed.

End RouteProperties.

(** ** The anchoring contract *)

Section AnchorProperties.

Import MerkleAnchor.

Lemma anchor_Some st ctx root :
  root <> 0 ->
  anchor st ctx root =
    Some (mkState (<[root := mkAnchor root (block_timestamp ctx) (msg_sender ctx)]>
                     (anchors st))
                  (anchorHistory st ++ [root]),
          mkRootAnchored root (block_timestamp ctx) (msg_sender ctx)).
Proof.
  intros Hr. unfold anchor. destruct (Z.eqb_spec root 0); [contradiction|reflexivity].
Qed.

(** [anchor] reverts exactly on the zero root. A call that goes through is
    read back by [verifyAnchor] with the block's timestamp and the sender of
    this call, also when the root had been anchored before (the earlier
    timestamp and submitter are overwritten, the history gets the root once
    more); no other root's record changes, the root becomes the latest root
    and the count grows by one. *)
Theorem anchor_then_verify (st : State) (ctx : Context) (root : Z) :
  (anchor st ctx root = None <-> root = 0) /\
  forall st' ev, anchor st ctx root = Some (st', ev) ->
    verifyAnchor st' root =
      (0 <? block_timestamp ctx, block_timestamp ctx, msg_sender ctx) /\
    (forall other, other <> root -> verifyAnchor st' other = verifyAnchor st other) /\
    getLatestRoot st' = root /\
    getAnchorCount st' = getAnchorCount st + 1 /\
    anchorHistory st' = anchorHistory st ++ [root] /\
    ev = mkRootAnchored root (block_timestamp ctx) (msg_sender ctx).
Proof.
  split.
  - unfold anchor. destruct (Z.eqb_spec root 0); split; try discriminate; auto.
    contradiction.
  - intros st' ev Ha.
    assert (Hr : root <> 0).
    { intros ->. unfold anchor in Ha. discriminate. }
    rewrite (anchor_Some _ _ _ Hr) in Ha. inversion Ha; subst; clear Ha.
    unfold verifyAnchor, anchors_at, getLatestRoot, getAnchorCount.
    cbn [anchors anchorHistory]. split; [|split; [|split; [|split]]].
    + rewrite lookup_insert_eq. reflexivity.
    + intros other Ho. rewrite lookup_insert_ne by auto. reflexivity.
    + rewrite length_app. cbn [length].
      destruct (Nat.eqb_spec (length (anchorHistory st) + 1) 0); [lia|].
      replace (length (anchorHistory st) + 1 - 1)%nat
        with (length (anchorHistory st)) by lia.
      rewrite app_nth2 by lia. rewrite Nat.sub_diag. reflexivity.
    + rewrite length_app. cbn [length]. lia.
    + auto.
Qed.

Lemma consistent_deployed : consistent deployed.
Proof.
  intros root. cbn [deployed anchors anchorHistory]. split.
  - rewrite lookup_empty. split; [intros H; inversion H|intros [x H]; discriminate].
  - intros a H. rewrite lookup_empty in H. discriminate.
Qed.

Lemma consistent_anchor st ctx root st' ev :
  0 < block_timestamp ctx -> consistent st ->
  anchor st ctx root = Some (st', ev) -> consistent st'.
Proof.
  intros Ht Hc Ha.
  assert (Hr : root <> 0) by (intros ->; unfold anchor in Ha; discriminate).
  rewrite (anchor_Some _ _ _ Hr) in Ha. inversion Ha; subst; clear Ha.
  intros r. cbn [anchors anchorHistory]. destruct (Hc r) as [Hin Hrec].
  destruct (decide (root = r)) as [->|Hne].
  - rewrite lookup_insert_eq. split.
    + split; [eauto|]. intros _. apply elem_of_app. right. constructor.
    + intros a E. inversion E; subst. cbn. auto.
  - rewrite lookup_insert_ne by auto. split; [|exact Hrec].
    rewrite elem_of_app, Hin. split; [|auto].
    intros [H|H]; [exact H|]. apply list_elem_of_singleton in H. congruence.
Qed.

Lemma run_consistent txs : forall st,
  Forall (fun tx => 0 < block_timestamp tx.1) txs ->
  consistent st -> consistent (run st txs).
Proof.
  induction txs as [|[ctx root] txs IH]; intros st Ht Hc; [exact Hc|].
  apply Forall_cons in Ht as [Ht Hts]. cbn [run].
  destruct (anchor st ctx root) as [[st' ev]|] eqn:Ha.
  - apply IH; [exact Hts|]. eapply consistent_anchor; eauto.
  - apply IH; assumption.
Qed.

Lemma run_history txs : forall st,
  anchorHistory (run st txs) =
  anchorHistory st ++ filter (fun r => r <> 0) (map snd txs).
Proof.
  induction txs as [|[ctx root] txs IH]; intros st; cbn [run map snd].
  - rewrite filter_nil, app_nil_r. reflexivity.
  - rewrite filter_cons. unfold anchor. destruct (Z.eqb_spec root 0) as [->|Hr].
    + rewrite decide_False by auto. apply IH.
    + rewrite decide_True by auto. rewrite IH. cbn [anchorHistory].
      rewrite <- app_assoc. reflexivity.
Qed.

(** On a contract that was deployed and then only received [anchor]
    transactions, in blocks with a positive timestamp: the history is the
    list of the non-zero roots submitted, in order (a reverted transaction
    leaves no trace); [verifyAnchor] reports a root as existing exactly when
    the root is in the history; and the zero root never exists. *)
Theorem anchored_iff_in_history (txs : list (Context * Z)) (root : Z)
    (Htime : Forall (fun tx => 0 < block_timestamp tx.1) txs) :
  let st := run deployed txs in
  anchorHistory st = filter (fun r => r <> 0) (map snd txs) /\
  getAnchorCount st = Z.of_nat (length (filter (fun r => r <> 0) (map snd txs))) /\
  ((verifyAnchor st root).1.1 = true <-> root ∈ anchorHistory st) /\
  verifyAnchor st 0 = (false, 0, 0).
Proof.
  cbv zeta. pose proof (run_consistent txs deployed Htime consistent_deployed) as Hc.
  pose proof (run_history txs deployed) as Hh. cbn [deployed anchorHistory app] in Hh.
  split; [exact Hh|]. split; [unfold getAnchorCount; rewrite Hh; reflexivity|].
  split.
  - destruct (Hc root) as [Hin Hrec]. rewrite Hin.
    unfold verifyAnchor, anchors_at. cbn [fst].
    destruct (anchors (run deployed txs) !! root) as [a|] eqn:E; cbn [default].
    + destruct (Hrec a eq_refl) as (_ & _ & Hpos).
      split; [eauto|]. intros _. apply Z.ltb_lt. exact Hpos.
    + cbn [timestamp]. split; [discriminate|]. intros [x Hx]. discriminate.
  - destruct (Hc 0) as [_ Hrec]. unfold verifyAnchor, anchors_at.
    destruct (anchors (run deployed txs) !! 0) as [a|] eqn:E; cbn [default].
    + destruct (Hrec a eq_refl) as (Hz & _). contradiction.
    + reflexivity.
Qed.

Lemma anchored_iff_in_history_witness :
  anchorHistory (run deployed [(mkContext 1700000000 7, 5); (mkContext 1700000012 8, 0);
                               (mkContext 1700000024 9, 5)]) = [5; 5] /\
  verifyAnchor (run deployed [(mkContext 1700000000 7, 5); (mkContext 1700000012 8, 0);
                              (mkContext 1700000024 9, 5)]) 0 = (false, 0, 0).
Proof.
  destruct (anchored_iff_in_history
              [(mkContext 1700000000 7, 5); (mkContext 1700000012 8, 0);
               (mkContext 1700000024 9, 5)] 5
              ltac:(repeat constructor)) as (Hh & _ & _ & Hz).
  split; [exact Hh|exact Hz].
Defined.

End AnchorProperties.
